(** * Leader contention over a ZooKeeper group: a shallow embedding

    This development embeds, definition by definition, the parts of

      - [src/zookeeper/group.hpp]      ([Group::Membership]),
      - [src/zookeeper/contender.cpp]  ([LeaderContenderProcess]),
      - [src/master/contender.cpp]     ([MasterContender::create]),

    and states the properties of the design document about them.

    The contender is an actor: its methods run to completion one at a
    time, and every continuation it registers is wrapped in
    [defer(self(), ...)], that is, posted to its own mailbox.  A state of
    the embedding is therefore the object's fields together with the
    promises it has allocated, the continuations waiting on the
    [candidacy] future, the mailbox, and the requests sent to the
    [Group].  The destructor is outside the embedding; [finalize], which
    runs when the process is terminated, is not an event of the run but
    the last thing a process does. *)

From stdpp Require Import base option list strings.
From Stdlib Require Import NArith Lia.
From Stdlib Require Import Ascii.

Local Open Scope string_scope.
Local Open Scope list_scope.
Local Open Scope nat_scope.


(** ** [Group::Membership] (group.hpp, lines 37-93) *)

Module Group.

(** [sequence] is a [uint64_t]; no arithmetic is ever done on it, so it
    is a natural number below [2^64] and no wrap-around is involved.
    [cancelled_] is a [Future<bool>] owned by the group that created the
    membership; it is identified by the future's shared state. *)
Record Membership := mkMembership {
  sequence : N;
  cancelled_ : nat
}.

Definition uint64_max : N := 18446744073709551615%N.

Definition wf (m : Membership) : Prop := (sequence m <= uint64_max)%N.

(** The six comparison operators, each exactly as written. *)
Definition op_eq (this that : Membership) : bool :=
  (sequence this =? sequence that)%N.

Definition op_ne (this that : Membership) : bool :=
  negb (sequence this =? sequence that)%N.

Definition op_lt (this that : Membership) : bool :=
  (sequence this <? sequence that)%N.

Definition op_le (this that : Membership) : bool :=
  (sequence this <=? sequence that)%N.

Definition op_gt (this that : Membership) : bool :=
  (sequence that <? sequence this)%N.

Definition op_ge (this that : Membership) : bool :=
  (sequence that <=? sequence this)%N.

Definition id (m : Membership) : N := sequence m.

Definition cancelled (m : Membership) : nat := cancelled_ m.

(** [std::set<Membership>] orders and identifies its elements with
    [operator<]: two keys are the same element when neither is less
    than the other.  [count] is [std::set::count]. *)
Definition equiv_key (a b : Membership) : bool :=
  negb (op_lt a b) && negb (op_lt b a).

Definition count (s : list Membership) (m : Membership) : nat :=
  length (filter (fun x => equiv_key x m = true) s).

End Group.

Import Group.

(** ** Futures and promises

    [process::Future] and [process::Promise] come from libprocess, which
    is not part of the sources at hand; the contender only relies on
    their single-assignment discipline. *)

(** Modelled from the spec: the state of a libprocess future, which is not
    under src/.  The design document calls a slot's promise a one-shot
    channel ("assigned" = created, "fulfilled" = value sent) and a
    future a single-shot signal; the code distinguishes [isPending],
    [isReady], [isFailed] and a discarded future. *)
Inductive fstate (V : Type) : Type :=
| Pending
| Ready (v : V)
| Failed (msg : string)
| Discarded.

Arguments Pending {V}.
Arguments Ready {V} v.
Arguments Failed {V} msg.
Arguments Discarded {V}.

Definition isPending {V} (f : fstate V) : bool :=
  match f with Pending => true | _ => false end.

Definition isReady {V} (f : fstate V) : bool :=
  match f with Ready _ => true | _ => false end.

Definition isFailed {V} (f : fstate V) : bool :=
  match f with Failed _ => true | _ => false end.

Definition fstate_map {A B} (g : A -> B) (f : fstate A) : fstate B :=
  match f with
  | Pending => Pending
  | Ready v => Ready (g v)
  | Failed msg => Failed msg
  | Discarded => Discarded
  end.

(** What the contender's own promises carry: [Nothing] (the inner
    future), [bool] (the withdrawal) and a [Future<Nothing>] (the outer
    future holds the inner one, by reference to its shared state). *)
Inductive value : Type :=
| VNothing
| VBool (b : bool)
| VFuture (f : nat).

(** The shared states allocated by the contender.  A [Promise<T>*] and
    every [Future<T>] obtained from it denote the same cell, so a future
    is identified by the index of its cell: two futures are the same
    future exactly when the indices agree (libprocess compares futures by
    the address of the shared state). *)
Abbreviation Heap := (list (fstate value)).

(** Modelled from the spec: [Promise<T>::set], [Promise<T>::fail] and
    [Promise<T>::set(const Future<T>&)] of libprocess, not under src/.  A
    promise is fulfilled at most once: the operation takes effect, and
    answers [true], only on a pending promise ([joined] tests that
    answer). *)
Definition promise_set (p : nat) (v : value) (h : Heap) : bool * Heap :=
  match h !! p with
  | Some Pending => (true, <[p := Ready v]> h)
  | _ => (false, h)
  end.

Definition promise_fail (p : nat) (msg : string) (h : Heap) : bool * Heap :=
  match h !! p with
  | Some Pending => (true, <[p := Failed msg]> h)
  | _ => (false, h)
  end.

Definition promise_associate (p : nat) (f : fstate value) (h : Heap)
  : bool * Heap :=
  match h !! p with
  | Some Pending => (true, <[p := f]> h)
  | _ => (false, h)
  end.

(** ** The contender and its surroundings *)

(** A continuation attached with [onAny(defer(self(), &Self::...))]. *)
Inductive callback : Type :=
| CbJoined
| CbCancel.

(** A deferred invocation waiting in the mailbox of the process. *)
Inductive message : Type :=
| MJoined
| MCancel
| MWatched (memberships : fstate (list Membership))
| MCancelled (successful : fstate bool).

(** A request sent to the [Group]. *)
Inductive group_call : Type :=
| GJoin (data : string)
| GCancel (m : Membership)
| GWatch (expected : list Membership).

(** [data], [contending], [watching], [withdrawing] and [candidacy] are
    the fields of [LeaderContenderProcess] (lines 52-73).  The rest is
    the part of the run-time the fields refer to:
      - [heap]: the promises created with [new Promise] and the futures
        built from a value;
      - [cand_cbs]: continuations attached to [candidacy] while pending;
      - [mailbox]: deferred invocations, oldest first;
      - [calls]: the requests issued to the group, oldest first;
      - [watches], [cancels]: futures returned by [Group::watch] and
        [Group::cancel] that are still pending, each carrying a deferred
        [watched] or [cancelled]. *)
Record World : Type := mkWorld {
  data : string;
  contending : option nat;
  watching : option nat;
  withdrawing : option nat;
  candidacy : fstate Membership;
  heap : Heap;
  cand_cbs : list callback;
  mailbox : list message;
  calls : list group_call;
  watches : nat;
  cancels : nat
}.

Definition with_contending (x : option nat) (w : World) : World :=
  mkWorld (data w) x (watching w) (withdrawing w) (candidacy w) (heap w)
          (cand_cbs w) (mailbox w) (calls w) (watches w) (cancels w).

Definition with_watching (x : option nat) (w : World) : World :=
  mkWorld (data w) (contending w) x (withdrawing w) (candidacy w) (heap w)
          (cand_cbs w) (mailbox w) (calls w) (watches w) (cancels w).

Definition with_withdrawing (x : option nat) (w : World) : World :=
  mkWorld (data w) (contending w) (watching w) x (candidacy w) (heap w)
          (cand_cbs w) (mailbox w) (calls w) (watches w) (cancels w).

Definition with_candidacy (x : fstate Membership) (w : World) : World :=
  mkWorld (data w) (contending w) (watching w) (withdrawing w) x (heap w)
          (cand_cbs w) (mailbox w) (calls w) (watches w) (cancels w).

Definition with_heap (x : Heap) (w : World) : World :=
  mkWorld (data w) (contending w) (watching w) (withdrawing w) (candidacy w)
          x (cand_cbs w) (mailbox w) (calls w) (watches w) (cancels w).

Definition with_cand_cbs (x : list callback) (w : World) : World :=
  mkWorld (data w) (contending w) (watching w) (withdrawing w) (candidacy w)
          (heap w) x (mailbox w) (calls w) (watches w) (cancels w).

Definition with_mailbox (x : list message) (w : World) : World :=
  mkWorld (data w) (contending w) (watching w) (withdrawing w) (candidacy w)
          (heap w) (cand_cbs w) x (calls w) (watches w) (cancels w).

Definition with_calls (x : list group_call) (w : World) : World :=
  mkWorld (data w) (contending w) (watching w) (withdrawing w) (candidacy w)
          (heap w) (cand_cbs w) (mailbox w) x (watches w) (cancels w).

Definition with_watches (x : nat) (w : World) : World :=
  mkWorld (data w) (contending w) (watching w) (withdrawing w) (candidacy w)
          (heap w) (cand_cbs w) (mailbox w) (calls w) x (cancels w).

Definition with_cancels (x : nat) (w : World) : World :=
  mkWorld (data w) (contending w) (watching w) (withdrawing w) (candidacy w)
          (heap w) (cand_cbs w) (mailbox w) (calls w) (watches w) x.

(** A freshly constructed process (constructor, lines 77-81): the three
    slots are [None] and [candidacy] is a default-constructed, pending
    future. *)
Definition init (d : string) : World :=
  mkWorld d None None None Pending [] [] [] [] 0 0.

(** *** A state monad with abortion

    A method reads and updates the world; a failed [CHECK] aborts the
    whole program, which is the result [None]. *)
Definition M (A : Type) : Type := World -> option (A * World).

Definition ret {A} (a : A) : M A := fun w => Some (a, w).

Definition bind {A B} (c : M A) (k : A -> M B) : M B :=
  fun w => match c w with
           | Some (a, w') => k a w'
           | None => None
           end.

Definition abort {A} : M A := fun _ => None.

Definition get : M World := fun w => Some (w, w).

Definition modify (f : World -> World) : M unit := fun w => Some (tt, f w).

Notation "x <- c1 ;; c2" := (bind c1 (fun x => c2))
  (at level 100, c1 at next level, right associativity).

Notation "c1 ;; c2" := (bind c1 (fun _ => c2))
  (at level 100, right associativity).

Definition CHECK (b : bool) : M unit := if b then ret tt else abort.

(** [new Promise<T>()]: a fresh pending cell; the result stands for the
    pointer and for [->future()]. *)
Definition new_promise : M nat :=
  w <- get ;;
  modify (with_heap (heap w ++ [Pending])) ;;
  ret (length (heap w)).

(** [Future<T>(const T&)]: a fresh cell that is ready from the start. *)
Definition new_future (v : value) : M nat :=
  w <- get ;;
  modify (with_heap (heap w ++ [Ready v])) ;;
  ret (length (heap w)).

Definition lift_heap (f : Heap -> bool * Heap) : M bool :=
  w <- get ;;
  modify (with_heap (snd (f (heap w)))) ;;
  ret (fst (f (heap w))).

(** The invocation a continuation stands for. *)
Definition deferred (cb : callback) : message :=
  match cb with
  | CbJoined => MJoined
  | CbCancel => MCancel
  end.

(** [candidacy.onAny(defer(self(), f))]: on a pending future the
    continuation waits; on a completed one [onAny] runs it at once, and
    running a deferred continuation posts it to the mailbox. *)
Definition candidacy_onAny (cb : callback) : M unit :=
  w <- get ;;
  if isPending (candidacy w)
  then modify (with_cand_cbs (cand_cbs w ++ [cb]))
  else modify (with_mailbox (mailbox w ++ [deferred cb])).

(** [candidacy = group->join(data)]: the request goes to the group and
    the field now holds the future of that request, which is pending and
    has no continuation attached yet. *)
Definition group_join (d : string) : M unit :=
  w <- get ;;
  modify (with_calls (calls w ++ [GJoin d])) ;;
  modify (with_candidacy Pending) ;;
  modify (with_cand_cbs []).

(** [group->cancel(m).onAny(defer(self(), &Self::cancelled, _1))]. *)
Definition group_cancel (m : Membership) : M unit :=
  w <- get ;;
  modify (with_calls (calls w ++ [GCancel m])) ;;
  modify (with_cancels (S (cancels w))).

(** [group->watch(expected).onAny(defer(self(), &Self::watched, _1))]. *)
Definition group_watch (expected : list Membership) : M unit :=
  w <- get ;;
  modify (with_calls (calls w ++ [GWatch expected])) ;;
  modify (with_watches (S (watches w))).

(** ** The methods of [LeaderContenderProcess] *)

(** [fail] (lines 257-270). *)
Definition fail (msg : string) : M unit :=
  w <- get ;;
  match contending w with
  | Some p => lift_heap (promise_fail p msg) ;; ret tt
  | None => ret tt
  end ;;
  match watching w with
  | Some p => lift_heap (promise_fail p msg) ;; ret tt
  | None => ret tt
  end ;;
  match withdrawing w with
  | Some p => lift_heap (promise_fail p msg) ;; ret tt
  | None => ret tt
  end.

(** [cancel] (lines 165-176). *)
Definition cancel : M unit :=
  w <- get ;;
  match candidacy w with
  | Ready m => group_cancel m
  | _ => ret tt
  end.

(** [contend] (lines 118-130). *)
Definition contend : M nat :=
  w <- get ;;
  CHECK (bool_decide (contending w = None)) ;;
  group_join (data w) ;;
  candidacy_onAny CbJoined ;;
  p <- new_promise ;;
  modify (with_contending (Some p)) ;;
  ret p.

(** A [Promise<T>*] where a [bool] is expected: the boolean conversion of
    a pointer tests it against null, and a pointer obtained from [new] is
    never null.  (Cells are numbered from 0; no number stands for the
    null pointer.) *)
Definition pointer_to_bool (p : nat) : bool := true.

(** [withdraw] (lines 133-162).

    Line 140 returns [withdrawing.get()], which is the [Promise<bool>*]
    held by the slot, not its [->future()] as on line 161.  The function
    returns a [Future<bool>], and the only way from a pointer to a
    [Future<bool>] is the boolean conversion followed by the constructor
    [Future<bool>(const bool&)], the constructor that line 158 uses for
    [return false].  Either statement therefore builds a new future that
    is ready at once. *)
Definition withdraw : M nat :=
  w <- get ;;
  CHECK (bool_decide (contending w <> None)) ;;
  match withdrawing w with
  | Some q => new_future (VBool (pointer_to_bool q))
  | None =>
      p <- new_promise ;;
      modify (with_withdrawing (Some p)) ;;
      match candidacy w with
      | Pending => candidacy_onAny CbCancel ;; ret p
      | Ready _ => cancel ;; ret p
      | Failed _ => new_future (VBool false)
      | Discarded => abort
      end
  end.

(** [cancelled] (lines 179-186).  [withdrawing.get()->set(successful)] is
    given a [Future<bool>], the overload that ties the promise to that
    future; [successful] has completed when the continuation runs. *)
Definition cancelled (successful : fstate bool) : M unit :=
  w <- get ;;
  CHECK (isReady (candidacy w)) ;;
  match withdrawing w with
  | None => abort
  | Some p => lift_heap (promise_associate p (fstate_map VBool successful)) ;; ret tt
  end.

(** [joined] (lines 189-218).  Line 215 calls [group->watch()] with the
    default argument, the empty set. *)
Definition joined : M unit :=
  w <- get ;;
  match candidacy w with
  | Failed msg => fail msg
  | Ready _ =>
      match withdrawing w with
      | Some _ => ret tt
      | None =>
          CHECK (bool_decide (watching w = None)) ;;
          p <- new_promise ;;
          modify (with_watching (Some p)) ;;
          match contending w with
          | None => abort
          | Some c =>
              b <- lift_heap (promise_set c (VFuture p)) ;;
              if b then group_watch [] else ret tt
          end
      end
  | _ => abort
  end.

(** [watched] (lines 221-254). *)
Definition watched (memberships : fstate (list Membership)) : M unit :=
  w <- get ;;
  match contending w with
  | None => abort
  | Some c =>
      CHECK (match heap w !! c with Some (Ready _) => true | _ => false end) ;;
      match withdrawing w with
      | Some _ => ret tt
      | None =>
          match memberships with
          | Failed msg => fail msg
          | Ready ms =>
              match watching w, candidacy w with
              | Some p, Ready m =>
                  if Nat.eqb (count ms m) 0
                  then lift_heap (promise_set p VNothing) ;; ret tt
                  else group_watch ms
              | _, _ => abort
              end
          | _ => abort
          end
      end
  end.

(** ** The run of the process

    The client calls [contend] and [withdraw]; the group completes the
    futures it handed out; the process takes the next deferred
    invocation from its mailbox. *)
Inductive event : Type :=
| Contend
| Withdraw
| JoinDone (r : fstate Membership)
| WatchDone (r : fstate (list Membership))
| CancelDone (r : fstate bool)
| Deliver.

Definition handle (m : message) : M unit :=
  match m with
  | MJoined => joined
  | MCancel => cancel
  | MWatched r => watched r
  | MCancelled r => cancelled r
  end.

(** An event that cannot happen in the current world (a future completed
    twice, a completion nobody waits for, an empty mailbox) has no
    successor, like an aborted method. *)
Definition exec (e : event) : M unit :=
  match e with
  | Contend => contend ;; ret tt
  | Withdraw => withdraw ;; ret tt
  | JoinDone r =>
      w <- get ;;
      CHECK (bool_decide (contending w <> None)
             && isPending (candidacy w) && negb (isPending r)) ;;
      modify (with_candidacy r) ;;
      modify (with_mailbox (mailbox w ++ map deferred (cand_cbs w))) ;;
      modify (with_cand_cbs [])
  | WatchDone r =>
      w <- get ;;
      match watches w with
      | 0 => abort
      | S n =>
          CHECK (negb (isPending r)) ;;
          modify (with_watches n) ;;
          modify (with_mailbox (mailbox w ++ [MWatched r]))
      end
  | CancelDone r =>
      w <- get ;;
      match cancels w with
      | 0 => abort
      | S n =>
          CHECK (negb (isPending r)) ;;
          modify (with_cancels n) ;;
          modify (with_mailbox (mailbox w ++ [MCancelled r]))
      end
  | Deliver =>
      w <- get ;;
      match mailbox w with
      | [] => abort
      | m :: rest => modify (with_mailbox rest) ;; handle m
      end
  end.

Definition step (e : event) (w : World) : option World :=
  snd <$> exec e w.

Fixpoint run (es : list event) (w : World) : option World :=
  match es with
  | [] => Some w
  | e :: es' =>
      match step e w with
      | Some w' => run es' w'
      | None => None
      end
  end.

Definition reachable (w : World) : Prop :=
  exists d es, run es (init d) = Some w.

(** The operations a contender performs during its lifetime, as one
    type.  (The destructor, which ends that lifetime, is not one of
    them.) *)
Inductive operation : Type :=
| OContend
| OWithdraw
| OJoined
| OWatched (memberships : fstate (list Membership))
| OCancelled (successful : fstate bool)
| OFail (msg : string)
| OCancel.

Definition perform (o : operation) : M unit :=
  match o with
  | OContend => contend ;; ret tt
  | OWithdraw => withdraw ;; ret tt
  | OJoined => joined
  | OWatched r => watched r
  | OCancelled r => cancelled r
  | OFail msg => fail msg
  | OCancel => cancel
  end.

(** Each slot that is assigned stays assigned, to the same promise. *)
Definition slots_kept (w w' : World) : Prop :=
  (forall p, contending w = Some p -> contending w' = Some p) /\
  (forall p, watching w = Some p -> watching w' = Some p) /\
  (forall p, withdrawing w = Some p -> withdrawing w' = Some p).

(** What [Promise::fail] does to one shared state. *)
Definition fail_cell (msg : string) (c : fstate value) : fstate value :=
  match c with
  | Pending => Failed msg
  | _ => c
  end.


(** ** Invariants of the run *)

(** The number of [watched] invocations still to come: the watch futures
    the group has not completed, and those completed whose continuation
    waits in the mailbox. *)
Fixpoint watched_in (mb : list message) : nat :=
  match mb with
  | [] => 0
  | MWatched _ :: mb' => S (watched_in mb')
  | _ :: mb' => watched_in mb'
  end.

Definition tokens (w : World) : nat := watches w + watched_in (mailbox w).

Definition is_watch (c : group_call) : bool :=
  match c with GWatch _ => true | _ => false end.

Record Inv (w : World) : Prop := mkInv {
  (* the slots point into the heap ... *)
  inv_contending_valid : forall p, contending w = Some p -> p < length (heap w);
  inv_watching_valid : forall p, watching w = Some p -> p < length (heap w);
  inv_withdrawing_valid : forall p, withdrawing w = Some p -> p < length (heap w);
  (* ... at three different promises *)
  inv_contending_watching :
    forall p q, contending w = Some p -> watching w = Some q -> p <> q;
  inv_contending_withdrawing :
    forall p q, contending w = Some p -> withdrawing w = Some q -> p <> q;
  inv_watching_withdrawing :
    forall p q, watching w = Some p -> withdrawing w = Some q -> p <> q;
  (* at most one watch is in flight, and only for an entered candidate
     whose inner promise is still open *)
  inv_tokens : tokens w <= 1;
  inv_watch :
    tokens w <> 0 ->
    exists c v p m,
      contending w = Some c /\ heap w !! c = Some (Ready v) /\
      watching w = Some p /\ heap w !! p = Some Pending /\
      candidacy w = Ready m;
  (* while the join is pending nothing has been entered *)
  inv_pending_watching : candidacy w = Pending -> watching w = None;
  inv_pending_contending :
    forall c, candidacy w = Pending -> contending w = Some c ->
              heap w !! c = Some Pending;
  inv_pending_calls :
    candidacy w = Pending -> forallb (fun c => negb (is_watch c)) (calls w) = true;
  (* a withdrawal requested during the join waits on the candidacy *)
  inv_pending_withdrawing :
    withdrawing w <> None -> candidacy w = Pending -> In CbCancel (cand_cbs w);
  (* before [contend] nothing has happened *)
  inv_fresh :
    contending w = None ->
    watching w = None /\ withdrawing w = None /\ candidacy w = Pending /\
    calls w = []
}.

(** The situation of a contender that withdrew during the join: the
    outer promise is open, there is no inner promise, and no watch has
    been, is being, or is about to be served. *)
Record Withdrawn (w : World) : Prop := mkWithdrawn {
  wd_contending : exists c, contending w = Some c /\ heap w !! c = Some Pending;
  wd_watching : watching w = None;
  wd_calls : forallb (fun c => negb (is_watch c)) (calls w) = true;
  wd_tokens : tokens w = 0
}.

(** The situation of a contender whose join is pending: the mailbox is
    empty, no answer of the group is outstanding but that of the join,
    and the continuations waiting on the candidacy are [joined], which
    [contend] attached, followed by [cancel] when [withdraw] has been
    called. *)
Definition Joining (w : World) : Prop :=
  mailbox w = [] /\ watches w = 0 /\ cancels w = 0 /\
  cand_cbs w = match contending w, withdrawing w with
               | None, _ => []
               | Some _, None => [CbJoined]
               | Some _, Some _ => [CbJoined; CbCancel]
               end.

(** ** [MasterContender::create] (master/contender.cpp, lines 66-91) *)

(** [Try<T>] of stout. *)
Inductive Try (A : Type) : Type :=
| TryOk (a : A)
| TryError (msg : string).

Arguments TryOk {A} a.
Arguments TryError {A} msg.

(** The two concrete contenders [create] can build. *)
Inductive MasterContender (URL : Type) : Type :=
| StandaloneMasterContender
| ZooKeeperMasterContender (url : URL).

Arguments StandaloneMasterContender {URL}.
Arguments ZooKeeperMasterContender {URL} url.

(** Modelled from the spec: [strings::startsWith] of stout, not under
    src/: "[zk] starts with" the given prefix. *)
Fixpoint startsWith (s prefix : string) : bool :=
  match prefix, s with
  | EmptyString, _ => true
  | String a prefix', String b s' => Ascii.eqb a b && startsWith s' prefix'
  | String _ _, EmptyString => false
  end.

(** [std::string::substr(pos)]: the characters from [pos] on. *)
Fixpoint substr (s : string) (pos : nat) : string :=
  match pos, s with
  | 0, _ => s
  | S pos', String _ s' => substr s' pos'
  | S _, EmptyString => EmptyString
  end.

(** Modelled from the spec: [strings::trim] of stout, not under src/:
    "trim whitespace", that is, drop blanks, tabs, line feeds and
    carriage returns from both ends. *)
Definition is_whitespace (c : ascii) : bool :=
  match Ascii.nat_of_ascii c with
  | 32 | 9 | 10 | 13 => true
  | _ => false
  end.

Fixpoint ltrim (s : list ascii) : list ascii :=
  match s with
  | c :: s' => if is_whitespace c then ltrim s' else s
  | [] => []
  end.

Definition trim (s : string) : string :=
  String.string_of_list_ascii
    (rev (ltrim (rev (ltrim (String.list_ascii_of_string s))))).

Section Create.

(** [zookeeper::URL] and its parser ([zookeeper/url.hpp]) and [os::read]
    (the file system) are not under src/; [create] is embedded over
    them. *)
Variable URL : Type.
Variable path : URL -> string.
Variable URL_parse : string -> Try URL.
Variable os_read : string -> Try string.

(** [create] calls itself on the contents of the file, and nothing
    bounds the chain of files (a file may name itself): [fuel] bounds
    the depth of the recursion and [None] means it was exhausted. *)
Fixpoint create (fuel : nat) (zk : string)
  : option (Try (MasterContender URL)) :=
  match fuel with
  | 0 => None
  | S fuel' =>
      if String.eqb zk ""
      then Some (TryOk StandaloneMasterContender)
      else if startsWith zk "zk://"
      then
        match URL_parse zk with
        | TryError e => Some (TryError e)
        | TryOk url =>
            if String.eqb (path url) "/"
            then Some (TryError
              "Expecting a (chroot) path for ZooKeeper ('/' is not supported)")
            else Some (TryOk (ZooKeeperMasterContender url))
        end
      else if startsWith zk "file://"
      then
        let file := substr zk 7 in
        match os_read file with
        | TryError _ =>
            Some (TryError
              (String.append "Failed to read from file at '"
                 (String.append file "'")))
        | TryOk contents => create fuel' (trim contents)
        end
      else
        Some (TryError
          (String.append "Failed to parse '" (String.append zk "'")))
  end.

End Create.

(** A small instance for experiments: a URL is its path (what follows
    the host), and one file exists. *)
Definition demo_parse (zk : string) : Try string :=
  match String.index 5 "/" zk with
  | Some i => TryOk (substr zk i)
  | None => TryError "Expecting a (chroot) path for ZooKeeper"%string
  end.

Definition demo_read (file : string) : Try string :=
  if String.eqb file "/etc/mesos/zk"
  then TryOk (String.append "  zk://10.0.0.1:2181/mesos"
                (String (Ascii.ascii_of_nat 10) EmptyString))
  else TryError "No such file or directory".

(** Two more file systems for experiments: one file that is blank, and
    one file that names itself. *)
Definition blank_read (file : string) : Try string :=
  if String.eqb file "/etc/mesos/zk"
  then TryOk (String " " (String (Ascii.ascii_of_nat 10) EmptyString))
  else TryError "No such file or directory".

Definition loop_read (file : string) : Try string :=
  if String.eqb file "/etc/mesos/zk"
  then TryOk (String.append "file:///etc/mesos/zk"
                (String (Ascii.ascii_of_nat 10) EmptyString))
  else TryError "No such file or directory".

(** ** Scenarios

    Concrete runs, used to exercise the statements below. *)
Definition master : string := "10.0.0.1:5050".

Definition m7 : Membership := mkMembership 7 0.

Definition m8 : Membership := mkMembership 8 1.

(** The world a run from a fresh contender ends in. *)
Definition after (es : list event) : World :=
  default (init master) (run es (init master)).

(** The candidate has entered and its first watch is in flight. *)
Definition entered : list event := [Contend; JoinDone (Ready m7); Deliver].

(** The join has failed and the process has been told. *)
Definition join_failed : list event :=
  [Contend; JoinDone (Failed "session expired"); Deliver].

(** ** Further bookkeeping of the run *)

Fixpoint count_if {A : Type} (f : A -> bool) (l : list A) : nat :=
  match l with
  | [] => 0
  | x :: l' => (if f x then 1 else 0) + count_if f l'
  end.

Definition is_cb_joined (cb : callback) : bool :=
  match cb with CbJoined => true | _ => false end.

Definition is_cb_cancel (cb : callback) : bool :=
  match cb with CbCancel => true | _ => false end.

Definition is_m_joined (m : message) : bool :=
  match m with MJoined => true | _ => false end.

Definition is_m_cancel (m : message) : bool :=
  match m with MCancel => true | _ => false end.

Definition is_m_cancelled (m : message) : bool :=
  match m with MCancelled _ => true | _ => false end.

Definition is_join (c : group_call) : bool :=
  match c with GJoin _ => true | _ => false end.

Definition is_cancel (c : group_call) : bool :=
  match c with GCancel _ => true | _ => false end.

(** Invocations of [joined] still to come. *)
Definition joins_due (w : World) : nat :=
  count_if is_cb_joined (cand_cbs w) + count_if is_m_joined (mailbox w).

(** Invocations of [cancel] still to come. *)
Definition cancels_due (w : World) : nat :=
  count_if is_cb_cancel (cand_cbs w) + count_if is_m_cancel (mailbox w).

(** Calls of [Group::cancel] made so far. *)
Definition cancels_sent (w : World) : nat := count_if is_cancel (calls w).

(** Invocations of [cancelled] still to come. *)
Definition answers_due (w : World) : nat :=
  cancels w + count_if is_m_cancelled (mailbox w).

Record Inv2 (w : World) : Prop := mkInv2 {
  (* continuations wait only on a pending candidacy, and [joined] is
     posted only once the candidacy has completed *)
  i2_cbs : cand_cbs w <> [] -> candidacy w = Pending;
  i2_mjoined : count_if is_m_joined (mailbox w) <> 0 -> candidacy w <> Pending;
  (* [joined] runs at most once, and before it has run nothing is decided *)
  i2_joins : joins_due w <= 1;
  i2_joins_state :
    joins_due w <> 0 ->
    watching w = None /\
    exists c, contending w = Some c /\ heap w !! c = Some Pending /\
      (isReady (candidacy w) = false ->
       forall q, withdrawing w = Some q -> heap w !! q = Some Pending);
  (* a candidate has entered only with a membership *)
  i2_watching : watching w <> None -> isReady (candidacy w) = true;
  (* the outer future holds the inner one *)
  i2_outer :
    forall c v, contending w = Some c -> heap w !! c = Some (Ready v) ->
      exists p, v = VFuture p /\ watching w = Some p;
  (* the one join *)
  i2_join :
    contending w <> None ->
    exists rest, calls w = GJoin (data w) :: rest /\ count_if is_join rest = 0;
  (* the one cancel, for the candidacy, on request *)
  i2_cancel_once : cancels_due w + cancels_sent w <= 1;
  i2_cancel_asked : cancels_due w + cancels_sent w <> 0 -> withdrawing w <> None;
  i2_cancel_state :
    cancels_due w <> 0 ->
    exists q, withdrawing w = Some q /\
      (isFailed (candidacy w) = false -> heap w !! q = Some Pending);
  i2_cancel_sent : forall m, In (GCancel m) (calls w) -> candidacy w = Ready m;
  i2_answers : answers_due w <= cancels_sent w;
  i2_answers_state :
    answers_due w <> 0 ->
    isReady (candidacy w) = true /\
    exists q, withdrawing w = Some q /\ heap w !! q = Some Pending;
  (* before [contend] nothing waits *)
  i2_fresh :
    contending w = None ->
    mailbox w = [] /\ cand_cbs w = [] /\ cancels w = 0
}.

(** The group is expected not to discard the futures it hands out (the
    [CHECK]s of [joined], [watched] and [withdraw] say so). *)
Definition polite (e : event) : bool :=
  match e with
  | JoinDone Discarded | WatchDone Discarded | CancelDone Discarded => false
  | _ => true
  end.

Definition settled (m : message) : bool :=
  match m with
  | MWatched Pending | MWatched Discarded => false
  | _ => true
  end.

Record Inv3 (w : World) : Prop := mkInv3 {
  i3_candidacy : candidacy w <> Discarded;
  i3_mailbox : forallb settled (mailbox w) = true
}.

Definition reachable_politely (w : World) : Prop :=
  exists d es, forallb polite es = true /\ run es (init d) = Some w.

(** [finalize] (contender.cpp, lines 103-115): what the process does when
    it is terminated. *)
Definition finalize : M unit := cancel.

(** ** [StandaloneMasterContender] (master/contender.cpp, lines 97-130) *)

Module Standalone.

(** The fields [initialized] and [promise] of the class; [cells] holds
    the shared states of the promises and futures it creates. *)
Record State : Type := mkState {
  initialized : bool;
  promise : option nat;
  cells : Heap
}.

(** Modelled from the spec: the constructor, declared in
    master/contender.hpp, not under src/.  The contender holds "a single
    local promise": [contend] compares the pointer with [NULL] before it
    creates the first one, and [initialize] sets the flag "to make sure
    it is called" (lines 109-112), so a new contender has no promise and
    is not initialized. *)
Definition fresh : State := mkState false None [].

(** [initialize] (lines 106-113). *)
Definition initialize (s : State) : State :=
  mkState true (promise s) (cells s).

(** [promise->set(Nothing()); delete promise;] as in lines 99-102 and
    119-123.  The promise has been fulfilled when it is deleted, so its
    future keeps the value. *)
Definition release (s : State) : Heap :=
  match promise s with
  | Some p => snd (promise_set p VNothing (cells s))
  | None => cells s
  end.

(** [contend] (lines 115-130).  [return promise->future()] hands a
    [Future<Nothing>] to a function returning [Future<Future<Nothing> >]:
    the result is a new outer future, ready at once, that holds the
    inner one. *)
Definition contend (s : State) : option (nat * State) :=
  if initialized s
  then
    let h := release s ++ [Pending] in
    let p := length (release s) in
    Some (length h, mkState true (Some p) (h ++ [Ready (VFuture p)]))
  else None.

(** The destructor (lines 97-103): what is left are the futures. *)
Definition destroy (s : State) : Heap := release s.

Inductive call : Type :=
| Initialize
| Contend.

(** A sequence of calls by the owner; the outer futures that [contend]
    returned are collected, the latest first. *)
Fixpoint calls_run (cs : list call) (s : State) (outs : list nat)
  : option (State * list nat) :=
  match cs with
  | [] => Some (s, outs)
  | Initialize :: cs' => calls_run cs' (initialize s) outs
  | Contend :: cs' =>
      match contend s with
      | Some (o, s') => calls_run cs' s' (o :: outs)
      | None => None
      end
  end.

(** The inner future an outer future holds. *)
Definition inner (h : Heap) (o : nat) : option nat :=
  match h !! o with
  | Some (Ready (VFuture p)) => Some p
  | _ => None
  end.

(** The promise, if any, is open; the latest outer future handed out
    holds its future; and the inner futures of the earlier ones have
    been set. *)
Record Inv (s : State) (outs : list nat) : Prop := mkInv {
  inv_promise : forall p, promise s = Some p -> cells s !! p = Some Pending;
  inv_latest :
    forall o rest, outs = o :: rest ->
      (exists p, inner (cells s) o = Some p /\ promise s = Some p) /\
      (forall o', In o' rest ->
         exists p', inner (cells s) o' = Some p' /\
                    cells s !! p' = Some (Ready VNothing))
}.

End Standalone.

(** * Properties *)

Ltac unfold_methods :=
  unfold perform, exec, handle, contend, withdraw, cancel, cancelled, joined,
    watched, fail, group_join, group_cancel, group_watch, candidacy_onAny,
    new_promise, new_future, lift_heap, pointer_to_bool, CHECK, modify, get,
    bind, ret, abort.

Ltac unfold_setters :=
  unfold with_contending, with_watching, with_withdrawing, with_candidacy,
    with_heap, with_cand_cbs, with_mailbox, with_calls, with_watches,
    with_cancels.

(** ** Memberships *)

(** C4.  The six comparison operators of [Group::Membership] decide the
    corresponding relation between the two sequence numbers; the
    [cancelled] future takes no part, so memberships of the same sequence
    issued by different groups are equal; and the order is total: of
    [m1 < m2], [m1 == m2], [m1 > m2] exactly one holds. *)
Theorem Membership_compared_by_sequence :
  forall m1 m2 : Membership,
    (op_eq m1 m2 = true <-> sequence m1 = sequence m2) /\
    (op_ne m1 m2 = true <-> sequence m1 <> sequence m2) /\
    (op_lt m1 m2 = true <-> (sequence m1 < sequence m2)%N) /\
    (op_le m1 m2 = true <-> (sequence m1 <= sequence m2)%N) /\
    (op_gt m1 m2 = true <-> (sequence m1 > sequence m2)%N) /\
    (op_ge m1 m2 = true <-> (sequence m1 >= sequence m2)%N) /\
    (forall c1 c2 : nat,
        let m1' := mkMembership (sequence m1) c1 in
        let m2' := mkMembership (sequence m2) c2 in
        op_eq m1' m2' = op_eq m1 m2 /\ op_ne m1' m2' = op_ne m1 m2 /\
        op_lt m1' m2' = op_lt m1 m2 /\ op_le m1' m2' = op_le m1 m2 /\
        op_gt m1' m2' = op_gt m1 m2 /\ op_ge m1' m2' = op_ge m1 m2) /\
    (forall (s : N) (c1 c2 : nat),
        op_eq (mkMembership s c1) (mkMembership s c2) = true) /\
    (op_lt m1 m2 = true /\ op_eq m1 m2 = false /\ op_gt m1 m2 = false \/
     op_lt m1 m2 = false /\ op_eq m1 m2 = true /\ op_gt m1 m2 = false \/
     op_lt m1 m2 = false /\ op_eq m1 m2 = false /\ op_gt m1 m2 = true).
Proof.
  intros [s1 c1] [s2 c2].
  unfold op_eq, op_ne, op_lt, op_le, op_gt, op_ge; simpl.
  rewrite negb_true_iff, N.eqb_eq, N.eqb_neq.
  rewrite <- !N.ltb_lt, <- !N.leb_le, N.gt_lt_iff, N.ge_le_iff.
  rewrite <- N.ltb_lt, <- N.leb_le.
  repeat match goal with |- _ /\ _ => split end;
    try tauto; try (intros; apply N.eqb_refl).
  destruct (N.ltb_spec s1 s2), (N.eqb_spec s1 s2), (N.ltb_spec s2 s1);
    try lia; tauto.
Qed.

(** ** The heap and the invariant of the run *)

Lemma lookup_snoc_old (h : Heap) x p : p < length h -> (h ++ [x]) !! p = h !! p.
Proof. intros. by apply lookup_app_l. Qed.

Lemma lookup_snoc_new (h : Heap) x : (h ++ [x]) !! length h = Some x.
Proof. rewrite lookup_app_r by lia. by rewrite Nat.sub_diag. Qed.

Lemma watched_in_app mb mb' : watched_in (mb ++ mb') = watched_in mb + watched_in mb'.
Proof. induction mb as [|[] mb IH]; simpl; lia. Qed.

Lemma watched_in_deferred cbs : watched_in (map deferred cbs) = 0.
Proof. induction cbs as [|[] cbs IH]; simpl; auto. Qed.

Lemma no_watch_snoc cl c :
  forallb (fun c => negb (is_watch c)) (cl ++ [c]) =
  forallb (fun c => negb (is_watch c)) cl && negb (is_watch c).
Proof. rewrite forallb_app. simpl. by rewrite andb_true_r. Qed.

Lemma promise_fail_length p msg (h : Heap) :
  length (snd (promise_fail p msg h)) = length h.
Proof.
  unfold promise_fail. destruct (h !! p) as [[]|]; simpl; auto.
  apply length_insert.
Qed.

Lemma promise_associate_length p f (h : Heap) :
  length (snd (promise_associate p f h)) = length h.
Proof.
  unfold promise_associate. destruct (h !! p) as [[]|]; simpl; auto.
  apply length_insert.
Qed.

Lemma promise_associate_other p f (h : Heap) q :
  p <> q -> snd (promise_associate p f h) !! q = h !! q.
Proof.
  intros. unfold promise_associate. destruct (h !! p) as [[]|]; simpl; auto.
  by apply list_lookup_insert_ne.
Qed.

(* Instantiate the invariant's facts about the slots that are assigned
    and record that every cell looked up lies inside the heap. *)
Ltac slot_facts :=
  repeat match goal with
  | H : forall p, Some ?x = Some p -> _ |- _ => specialize (H x eq_refl)
  | H : forall p q, Some ?x = Some p -> Some ?y = Some q -> _ |- _ =>
      specialize (H x y eq_refl eq_refl)
  | H : forall p, None = Some p -> _ |- _ => clear H
  | H : forall p q, None = Some p -> _ |- _ => clear H
  | H : forall p q, _ = Some p -> None = Some q -> _ |- _ => clear H
  | H : forall c, _ -> Some ?x = Some c -> _ |- _ =>
      specialize (fun E => H x E eq_refl)
  | H : forall c, _ -> None = Some c -> _ |- _ => clear H
  end.

Ltac heap_len :=
  repeat first
    [ rewrite length_insert in * | rewrite length_app in *
    | rewrite promise_fail_length in *
    | rewrite promise_associate_length in * ];
  simpl length in *.

Ltac heap_lt := heap_len; first [lia | eapply lookup_lt_Some; eassumption].

Ltac heap_lookup :=
  repeat match goal with
  | |- context [ (?h ++ [?x]) !! length ?h ] => rewrite (lookup_snoc_new h x)
  | |- context [ (?h ++ [?x]) !! ?p ] =>
      rewrite (lookup_snoc_old h x p) by heap_lt
  | |- context [ <[?p := ?x]> ?h !! ?p ] =>
      rewrite (list_lookup_insert_eq h p x) by heap_lt
  | |- context [ <[?p := ?x]> ?h !! ?q ] =>
      rewrite (list_lookup_insert_ne h p q x) by lia
  | |- context [ snd (promise_associate ?p ?f ?h) !! ?q ] =>
      rewrite (promise_associate_other p f h q) by lia
  end.

Ltac inv_pre w :=
  destruct w as [d c wa wd ca h cbs mb cl nw nc];
  intros [Hcv Hwv Hdv Hcw Hcd Hwd Htok Hwatch Hpw Hpc Hpcl Hpd Hfresh];
  unfold tokens in *; simpl in *;
  destruct c as [c|], wa as [wa|], wd as [wd|]; slot_facts;
  try solve [destruct (Hfresh eq_refl) as (? & ? & ? & ?); discriminate].

(* Discharge one field of the invariant in the successor world. *)
Ltac inv_field :=
  unfold tokens in *; simpl in *;
  rewrite ?watched_in_app, ?watched_in_deferred, ?no_watch_snoc in *;
  simpl in *;
  try match goal with
  | H : None = None -> _ /\ _ |- _ =>
      destruct (H eq_refl) as (? & ? & ? & ?); clear H
  end;
  try match goal with
  | Hw : ?t <> 0 -> exists _ _ _ _, _ |- _ =>
      let Hne := fresh in
      destruct (Nat.eq_dec t 0) as [? | Hne];
      [ clear Hw
      | destruct (Hw Hne) as (? & ? & ? & ? & ? & ? & ? & ? & ?); clear Hw ]
  end;
  intros; simplify_eq;
  try solve [exfalso; lia];
  try match goal with
  | |- exists _ _ _ _, _ => do 4 eexists; repeat split; try reflexivity
  end;
  heap_lookup;
  first [ done | heap_len; lia | eauto; fail
        | rewrite andb_true_r; eauto; fail
        | apply in_app_iff; simpl; eauto; fail
        | exfalso; lia ].

Ltac inv_post := constructor; inv_field.

Lemma contend_Inv w p w' : Inv w -> contend w = Some (p, w') -> Inv w'.
Proof.
  inv_pre w; unfold_methods; unfold_setters; simpl; try discriminate.
  destruct (Hfresh eq_refl) as (_ & _ & -> & ->).
  intros [= <- <-]. inv_post.
Qed.

Lemma withdraw_Inv w p w' : Inv w -> withdraw w = Some (p, w') -> Inv w'.
Proof.
  inv_pre w; unfold_methods; unfold_setters; simpl; try discriminate;
  try (intros [= <- <-]; inv_post);
  destruct ca as [|m|msg|]; simpl; intros [= <- <-]; inv_post.
Qed.

Lemma cancel_Inv w w' : Inv w -> cancel w = Some (tt, w') -> Inv w'.
Proof.
  inv_pre w; unfold_methods; unfold_setters; simpl;
  destruct ca as [|m|msg|]; simpl; intros [= <-]; inv_post.
Qed.

Lemma cancelled_Inv r w w' : Inv w -> cancelled r w = Some (tt, w') -> Inv w'.
Proof.
  inv_pre w; unfold_methods; unfold_setters; simpl;
  destruct ca as [|m|msg|]; simpl; try discriminate;
  intros [= <-]; inv_post.
Qed.

Lemma fail_Inv msg w w' :
  Inv w -> tokens w = 0 -> candidacy w <> Pending ->
  fail msg w = Some (tt, w') -> Inv w'.
Proof.
  inv_pre w; unfold_methods; unfold_setters; simpl;
  intros Ht Hca [= <-]; inv_post.
Qed.

Lemma pop_Inv w m rest :
  Inv w -> mailbox w = m :: rest -> Inv (with_mailbox rest w).
Proof.
  inv_pre w; unfold_setters; simpl; intros ->; destruct m; inv_post.
Qed.

Lemma joined_Inv w w' : Inv w -> joined w = Some (tt, w') -> Inv w'.
Proof.
  intros HI. destruct (candidacy w) as [|m|msg|] eqn:Hca.
  1,4: unfold joined, bind, get; rewrite Hca; discriminate.
  2: { unfold joined, bind, get; rewrite Hca. apply fail_Inv; auto.
       - destruct (Nat.eq_dec (tokens w) 0) as [|Hne]; auto.
         destruct (inv_watch w HI Hne) as (? & ? & ? & ? & ? & ? & ? & ? & ?).
         congruence.
       - congruence. }
  revert HI Hca.
  inv_pre w; unfold_methods; unfold_setters; simpl; intros ->; simpl;
    try discriminate; try (intros [= <-]; inv_post).
  all: unfold promise_set; rewrite lookup_snoc_old by done.
  all: destruct (h !! c) as [[]|] eqn:Hc; simpl; intros [= <-]; inv_post.
Qed.

Lemma watched_Inv r w w' :
  Inv w -> tokens w = 0 ->
  (forall p, watching w = Some p -> heap w !! p = Some Pending) ->
  candidacy w <> Pending ->
  watched r w = Some (tt, w') -> Inv w'.
Proof.
  inv_pre w; unfold_methods; unfold_setters; simpl; intros Ht Hp Hca;
    try discriminate;
    (destruct (h !! c) as [[]|] eqn:Hc; simpl; try discriminate);
    try (intros [= <-]; inv_post);
    (destruct r as [|ms|msg|]; simpl; try discriminate);
    try (intros [= <-]; inv_post);
    (destruct ca as [|m|msg'|]; simpl; try discriminate);
    (destruct (count ms m =? 0); simpl);
    try (intros [= <-]; inv_post).
  all: unfold promise_set; rewrite (Hp _ eq_refl); simpl; intros [= <-]; inv_post.
Qed.

Lemma step_Inv e w w' : Inv w -> step e w = Some w' -> Inv w'.
Proof.
  intros HI. unfold step. destruct (exec e w) as [[[] w'']|] eqn:He; [|done].
  simpl. intros [= <-]. revert He. destruct e; simpl.
  - unfold bind at 1. destruct (contend w) as [[p w1]|] eqn:E; [|done].
    intros [= <-]. eauto using contend_Inv.
  - unfold bind at 1. destruct (withdraw w) as [[p w1]|] eqn:E; [|done].
    intros [= <-]. eauto using withdraw_Inv.
  - revert HI. inv_pre w; unfold_methods; unfold_setters; simpl;
      try discriminate;
      (destruct ca; simpl; try discriminate);
      (destruct r; simpl; try discriminate); intros [= <-]; inv_post.
  - revert HI. inv_pre w; unfold_methods; unfold_setters; simpl;
      (destruct nw; simpl; try discriminate);
      (destruct r; simpl; try discriminate); intros [= <-]; inv_post.
  - revert HI. inv_pre w; unfold_methods; unfold_setters; simpl;
      (destruct nc; simpl; try discriminate);
      (destruct r; simpl; try discriminate); intros [= <-]; inv_post.
  - unfold bind at 1, get. destruct (mailbox w) as [|m rest] eqn:Hmb; [done|].
    unfold bind at 1, modify.
    pose proof (pop_Inv w m rest HI Hmb) as HI'.
    destruct m; simpl.
    + eauto using joined_Inv.
    + eauto using cancel_Inv.
    + assert (Ht : tokens w <> 0) by (unfold tokens; rewrite Hmb; simpl; lia).
      destruct (inv_watch w HI Ht) as (c & v & p & m & Hc & Hhc & Hp & Hhp & Hca).
      pose proof (inv_tokens w HI) as Hle.
      apply watched_Inv; auto.
      * unfold tokens in *. rewrite Hmb in Hle. destruct w; simpl in *. lia.
      * destruct w; simpl in *. intros ? ?; congruence.
      * destruct w; simpl in *. congruence.
    + eauto using cancelled_Inv.
Qed.

Lemma init_Inv d : Inv (init d).
Proof. constructor; simpl; try done. unfold tokens; simpl. lia. Qed.

Lemma run_Inv es : forall w w', Inv w -> run es w = Some w' -> Inv w'.
Proof.
  induction es as [|e es IH]; simpl; intros w w' HI.
  - by intros [= <-].
  - destruct (step e w) as [w1|] eqn:E; [|done]. eauto using step_Inv.
Qed.

Lemma reachable_Inv w : reachable w -> Inv w.
Proof. intros (d & es & H). eauto using run_Inv, init_Inv. Qed.

(** ** The three slots are assigned once *)

Lemma perform_slots_kept o w w' :
  perform o w = Some (tt, w') -> slots_kept w w'.
Proof.
  destruct w as [d c wa wd ca h cbs mb cl nw nc].
  destruct o; unfold_methods; unfold_setters; unfold slots_kept; simpl.
  - destruct c; simpl; [done|]. by intros [= <-].
  - destruct c; simpl; [|done].
    destruct wd; simpl; [by intros [= <-]|].
    destruct ca; simpl; intros [= <-]; simpl; done.
  - destruct ca; simpl; try done.
    + destruct wd; simpl; [by intros [= <-]|].
      destruct wa; simpl; [done|]. destruct c; simpl; [|done].
      match goal with |- context [if ?b then _ else _] => destruct b end;
        by intros [= <-].
    + destruct c, wa, wd; simpl; by intros [= <-].
  - destruct c; simpl; [|done].
    match goal with |- context [if ?b then _ else _] => destruct b end;
      simpl; [|done].
    destruct wd; simpl; [by intros [= <-]|].
    destruct memberships; simpl; try done.
    + destruct wa; simpl; [|done]. destruct ca; simpl; try done.
      match goal with |- context [if ?b then _ else _] => destruct b end;
        by intros [= <-].
    + destruct wa; simpl; by intros [= <-].
  - destruct ca; simpl; try done. destruct wd; simpl; [|done]. by intros [= <-].
  - destruct c, wa, wd; simpl; by intros [= <-].
  - destruct ca; simpl; by intros [= <-].
Qed.

Lemma slots_kept_refl w : slots_kept w w.
Proof. by repeat split. Qed.

Lemma slots_kept_trans w1 w2 w3 :
  slots_kept w1 w2 -> slots_kept w2 w3 -> slots_kept w1 w3.
Proof. intros (?&?&?) (?&?&?). repeat split; eauto. Qed.

Lemma step_slots_kept e w w' : step e w = Some w' -> slots_kept w w'.
Proof.
  unfold step. destruct (exec e w) as [[[] w1]|] eqn:He; [|done].
  simpl; intros [= <-]. revert He. destruct e.
  - apply (perform_slots_kept OContend).
  - apply (perform_slots_kept OWithdraw).
  - destruct w as [d c wa wd ca h cbs mb cl nw nc].
    unfold_methods; unfold_setters; unfold slots_kept; simpl.
    match goal with |- context [if ?b then _ else _] => destruct b end;
      simpl; [|done]. by intros [= <-].
  - destruct w as [d c wa wd ca h cbs mb cl nw nc].
    unfold_methods; unfold_setters; unfold slots_kept; simpl.
    destruct nw; simpl; [done|].
    destruct r; simpl; try done; by intros [= <-].
  - destruct w as [d c wa wd ca h cbs mb cl nw nc].
    unfold_methods; unfold_setters; unfold slots_kept; simpl.
    destruct nc; simpl; [done|].
    destruct r; simpl; try done; by intros [= <-].
  - simpl. unfold bind at 1, get.
    destruct (mailbox w) as [|m rest] eqn:Hmb; [done|].
    unfold bind at 1, modify. intros He.
    apply slots_kept_trans with (with_mailbox rest w).
    + destruct w; by repeat split.
    + destruct m.
      * by apply (perform_slots_kept OJoined).
      * by apply (perform_slots_kept OCancel).
      * by apply (perform_slots_kept (OWatched memberships)).
      * by apply (perform_slots_kept (OCancelled successful)).
Qed.

Lemma run_slots_kept es : forall w w', run es w = Some w' -> slots_kept w w'.
Proof.
  induction es as [|e es IH]; simpl; intros w w'.
  - intros [= <-]. apply slots_kept_refl.
  - destruct (step e w) as [w1|] eqn:E; [|done].
    intros. eapply slots_kept_trans; eauto using step_slots_kept.
Qed.

(** C6.  No operation of the contender (contend, withdraw, joined,
    watched, cancelled, fail, and the helper cancel) resets a slot: a
    slot that holds a promise before the operation holds the same promise
    after it.  Hence along every run, from any state, the slots once
    assigned stay assigned. *)
Theorem slots_never_reset :
  (forall o w w', perform o w = Some (tt, w') -> slots_kept w w') /\
  (forall es w w', run es w = Some w' -> slots_kept w w').
Proof. split; [apply perform_slots_kept | apply run_slots_kept]. Qed.

Lemma slots_never_reset_witness :
  (exists w', perform (OFail "session expired") (after entered) = Some (tt, w') /\
              slots_kept (after entered) w') /\
  run [Withdraw; WatchDone (Failed "session expired"); Deliver] (after entered)
  = Some (after (entered ++ [Withdraw; WatchDone (Failed "session expired");
                             Deliver])) /\
  slots_kept (after entered)
             (after (entered ++ [Withdraw; WatchDone (Failed "session expired");
                                 Deliver])).
Proof.
  destruct slots_never_reset as (Hop & Hrun).
  assert (H2 :
    run [Withdraw; WatchDone (Failed "session expired"); Deliver] (after entered)
    = Some (after (entered ++ [Withdraw; WatchDone (Failed "session expired");
                               Deliver])))
    by (vm_compute; reflexivity).
  split.
  - eexists. split; [vm_compute; reflexivity|].
    apply (Hop (OFail "session expired")). vm_compute; reflexivity.
  - split; [exact H2 | exact (Hrun _ _ _ H2)].
Defined.

Lemma after_reachable es w : run es (init master) = Some w -> reachable w.
Proof. intros H. by exists master, es. Qed.

(** ** Failure of the group *)

Lemma promise_fail_lookup p msg (h : Heap) q :
  snd (promise_fail p msg h) !! q =
  if decide (p = q) then fail_cell msg <$> h !! q else h !! q.
Proof.
  unfold promise_fail.
  destruct (h !! p) as [[]|] eqn:E; simpl; case_decide; subst;
    rewrite ?E; try reflexivity.
  - apply list_lookup_insert_eq. by eapply lookup_lt_Some.
  - by apply list_lookup_insert_ne.
Qed.



(** ** Withdrawal *)

(** Whatever the state, a second [withdraw] answers with a future
    created by that call, ready and holding [true]. *)
Lemma withdraw_again_is_fresh w f1 w1 f2 w2 :
  withdraw w = Some (f1, w1) -> withdraw w1 = Some (f2, w2) ->
  f1 < f2 /\ f2 = length (heap w1) /\ heap w2 !! f2 = Some (Ready (VBool true)).
Proof.
  destruct w as [d c wa wd ca h cbs mb cl nw nc].
  unfold_methods; unfold_setters; simpl.
  case_bool_decide; simpl; [|discriminate].
  destruct wd as [wd|]; simpl.
  - intros [= <- <-]; simpl. case_bool_decide; simpl; [|discriminate].
    intros [= <- <-]; simpl.
    split; [rewrite length_app; simpl; lia|]. split; [done|].
    apply lookup_snoc_new.
  - destruct ca; simpl; intros [= <- <-]; simpl;
      (case_bool_decide; simpl; [|discriminate]);
      intros [= <- <-]; simpl;
      (split; [rewrite ?length_app; simpl; lia|]); (split; [done|]);
      apply lookup_snoc_new.
Qed.

(** C2 fails on the code.  After a failed join the first [withdraw]
    returns a future holding [false] and the second a different future,
    holding [true]; while the join is pending the first [withdraw]
    returns the future of the withdrawing promise, which is pending, and
    the second a different future that is already [true]. *)
Theorem withdraw_twice_returns_two_futures :
  (exists w f1 w1 f2 w2,
     run join_failed (init master) = Some w /\
     withdraw w = Some (f1, w1) /\ withdraw w1 = Some (f2, w2) /\
     f1 <> f2 /\
     heap w2 !! f1 = Some (Ready (VBool false)) /\
     heap w2 !! f2 = Some (Ready (VBool true))) /\
  (exists w f1 w1 f2 w2,
     run [Contend] (init master) = Some w /\
     withdraw w = Some (f1, w1) /\ withdraw w1 = Some (f2, w2) /\
     f1 <> f2 /\ withdrawing w2 = Some f1 /\
     heap w2 !! f1 = Some Pending /\
     heap w2 !! f2 = Some (Ready (VBool true))).
Proof.
  split; do 5 eexists.
  - split; [vm_compute; reflexivity|].
    split; [vm_compute; reflexivity|]. split; [vm_compute; reflexivity|].
    split; [discriminate|]. split; reflexivity.
  - split; [vm_compute; reflexivity|].
    split; [vm_compute; reflexivity|]. split; [vm_compute; reflexivity|].
    split; [discriminate|]. by repeat split.
Qed.

(** C3, for the call that starts the withdrawal.  If the join has failed
    and [withdraw] has not been called before (the withdrawing slot is
    unassigned), then [withdraw] returns a future that is ready with
    [false], and it neither sends a cancel to the group nor queues
    anything. *)
Theorem first_withdraw_after_failed_join w msg :
  contending w <> None -> withdrawing w = None -> candidacy w = Failed msg ->
  exists f w',
    withdraw w = Some (f, w') /\
    heap w' !! f = Some (Ready (VBool false)) /\
    calls w' = calls w /\ cancels w' = cancels w /\
    cand_cbs w' = cand_cbs w /\ mailbox w' = mailbox w.
Proof.
  destruct w as [d c wa wd ca h cbs mb cl nw nc]; simpl.
  intros Hc -> ->. destruct c as [c|]; [clear Hc|done].
  unfold_methods; unfold_setters; simpl.
  do 2 eexists. split; [reflexivity|]. simpl. repeat split.
  replace (length h + 1) with (length (h ++ [Pending]))
    by (rewrite length_app; simpl; lia).
  apply lookup_snoc_new.
Qed.

Lemma first_withdraw_after_failed_join_witness :
  contending (after join_failed) <> None /\
  withdrawing (after join_failed) = None /\
  candidacy (after join_failed) = Failed "session expired" /\
  exists f w',
    withdraw (after join_failed) = Some (f, w') /\
    heap w' !! f = Some (Ready (VBool false)) /\
    calls w' = calls (after join_failed) /\
    cancels w' = cancels (after join_failed) /\
    cand_cbs w' = cand_cbs (after join_failed) /\
    mailbox w' = mailbox (after join_failed).
Proof.
  assert (H1 : contending (after join_failed) <> None)
    by (vm_compute; discriminate).
  assert (H2 : withdrawing (after join_failed) = None)
    by (vm_compute; reflexivity).
  assert (H3 : candidacy (after join_failed) = Failed "session expired")
    by (vm_compute; reflexivity).
  split; [exact H1|]. split; [exact H2|]. split; [exact H3|].
  exact (first_withdraw_after_failed_join
           (after join_failed) "session expired" H1 H2 H3).
Defined.

(** C3 as stated does not hold for every call made after the join has
    failed.  Here [withdraw] is first called during the join; the join
    then fails and both continuations run; the next [withdraw] finds the
    withdrawing slot assigned and answers with a future that holds
    [true], not [false]. *)
Lemma repeated_withdraw_after_failed_join :
  exists w f w',
    run [Contend; Withdraw; JoinDone (Failed "session expired");
         Deliver; Deliver] (init master) = Some w /\
    candidacy w = Failed "session expired" /\
    withdraw w = Some (f, w') /\
    heap w' !! f = Some (Ready (VBool true)) /\
    heap w' !! f <> Some (Ready (VBool false)).
Proof.
  do 3 eexists. split; [vm_compute; reflexivity|].
  split; [reflexivity|]. split; [vm_compute; reflexivity|].
  split; [reflexivity | discriminate].
Qed.

(** ** Contending once *)

(** C9, as the code has it.  [contend] succeeds exactly when the
    contending slot is unassigned: then the [CHECK] passes, the join is
    sent to the group and the slot receives a new, pending promise.  When
    the slot is assigned the [CHECK] fires and the program is aborted: no
    future, failed or not, is returned.  Since the slot is never reset,
    after one successful [contend] every later [contend], whatever
    happened in between, is aborted. *)
Theorem contend_only_once :
  (forall w, contending w = None ->
     exists p w', contend w = Some (p, w') /\ contending w' = Some p /\
                  heap w' !! p = Some Pending /\
                  calls w' = calls w ++ [GJoin (data w)]) /\
  (forall w, contending w <> None -> contend w = None) /\
  (forall w p w1 es w2,
     contend w = Some (p, w1) -> run es w1 = Some w2 -> contend w2 = None).
Proof.
  assert (Hsome : forall w, contending w <> None -> contend w = None).
  { intros [d [c|] wa wd ca h cbs mb cl nw nc]; simpl; [|done]. intros _.
    by unfold_methods. }
  split; [|split; [exact Hsome|]].
  - intros [d c wa wd ca h cbs mb cl nw nc]; simpl. intros ->.
    unfold_methods; unfold_setters; simpl. do 2 eexists.
    split; [reflexivity|]. simpl. split; [done|]. split; [|done].
    apply lookup_snoc_new.
  - intros w p w1 es w2 Hc Hrun. apply Hsome.
    assert (contending w1 = Some p) as Hp.
    { revert Hc. destruct w as [d [c|] wa wd ca h cbs mb cl nw nc];
        unfold_methods; unfold_setters; simpl; [done|]. by intros [= <- <-]. }
    destruct (run_slots_kept _ _ _ Hrun) as (Hk & _). rewrite (Hk _ Hp). done.
Qed.

Lemma contend_only_once_witness :
  contending (init master) = None /\
  (exists p w', contend (init master) = Some (p, w') /\ contending w' = Some p /\
                heap w' !! p = Some Pending /\
                calls w' = calls (init master) ++ [GJoin (data (init master))]) /\
  contending (after entered) <> None /\
  contend (init master) = Some (0, after [Contend]) /\
  run [JoinDone (Ready m7); Deliver] (after [Contend]) = Some (after entered) /\
  contend (after entered) = None.
Proof.
  destruct contend_only_once as (H1 & H2 & H3).
  split; [reflexivity|]. split; [apply H1; reflexivity|].
  split; [vm_compute; discriminate|].
  split; [vm_compute; reflexivity|]. split; [vm_compute; reflexivity|].
  apply (H3 (init master) 0 (after [Contend]) [JoinDone (Ready m7); Deliver]);
    vm_compute; reflexivity.
Defined.

(** C9 as stated does not hold: a second [contend] does not yield a
    failed future.  The call has no result at all, the assertion having
    stopped the program. *)
Lemma second_contend_aborts :
  exists w,
    run [Contend] (init master) = Some w /\
    contend w = None /\
    ~ (exists f w' msg, contend w = Some (f, w') /\
                        heap w' !! f = Some (Failed msg)).
Proof.
  eexists. split; [vm_compute; reflexivity|]. split; [reflexivity|].
  intros (f & w' & msg & H & _). discriminate H.
Qed.

(** ** What a handler leaves alone *)

Lemma handle_frame m w w' :
  handle m w = Some (tt, w') ->
  data w' = data w /\ candidacy w' = candidacy w /\
  cand_cbs w' = cand_cbs w /\ mailbox w' = mailbox w.
Proof.
  destruct w as [d c wa wd ca h cbs mb cl nw nc].
  destruct m as [| |r|r]; unfold_methods; unfold_setters; simpl.
  - destruct ca; simpl; try done.
    + destruct wd; simpl; [by intros [= <-]|].
      destruct wa; simpl; [done|]. destruct c; simpl; [|done].
      match goal with |- context [if ?b then _ else _] => destruct b end;
        by intros [= <-].
    + destruct c, wa, wd; simpl; by intros [= <-].
  - destruct ca; simpl; by intros [= <-].
  - destruct c; simpl; [|done].
    match goal with |- context [if ?b then _ else _] => destruct b end;
      simpl; [|done].
    destruct wd; simpl; [by intros [= <-]|].
    destruct r; simpl; try done.
    + destruct wa; simpl; [|done]. destruct ca; simpl; try done.
      match goal with |- context [if ?b then _ else _] => destruct b end;
        by intros [= <-].
    + destruct wa; simpl; by intros [= <-].
  - destruct ca; simpl; try done. destruct wd; simpl; [|done]. by intros [= <-].
Qed.

(** ** While the join is pending *)

(** Once the join has completed the candidacy stays as it is. *)
Lemma step_candidacy e w w' :
  step e w = Some w' -> candidacy w <> Pending -> contending w <> None ->
  candidacy w' = candidacy w.
Proof.
  unfold step. destruct (exec e w) as [[[] w1]|] eqn:He; [|done].
  simpl; intros [= <-] Hca Hc. revert He.
  destruct e; simpl.
  - destruct w as [d c wa wd ca h cbs mb cl nw nc]; simpl in *.
    unfold_methods; unfold_setters; simpl.
    destruct c; simpl; [done|]. done.
  - destruct w as [d c wa wd ca h cbs mb cl nw nc].
    unfold_methods; unfold_setters; simpl.
    destruct c; simpl; [|done].
    destruct wd; simpl; [by intros [= <-]|].
    destruct ca; simpl; intros [= <-]; done.
  - destruct w as [d c wa wd ca h cbs mb cl nw nc]; simpl in *.
    unfold_methods; unfold_setters; simpl.
    destruct ca; simpl; try done; rewrite ?andb_false_r; simpl; done.
  - destruct w as [d c wa wd ca h cbs mb cl nw nc].
    unfold_methods; unfold_setters; simpl.
    destruct nw; simpl; [done|].
    destruct r; simpl; try done; by intros [= <-].
  - destruct w as [d c wa wd ca h cbs mb cl nw nc].
    unfold_methods; unfold_setters; simpl.
    destruct nc; simpl; [done|].
    destruct r; simpl; try done; by intros [= <-].
  - unfold bind at 1, get.
    destruct (mailbox w) as [|m rest] eqn:Hmb; [done|].
    unfold bind at 1, modify. intros He.
    destruct (handle_frame _ _ _ He) as (_ & -> & _). by destruct w.
Qed.

Lemma step_Joining e w w' :
  Inv w -> (candidacy w = Pending -> Joining w) -> step e w = Some w' ->
  candidacy w' = Pending -> Joining w'.
Proof.
  intros HI HJ Hstep Hca'.
  assert (Hdec : candidacy w = Pending \/ candidacy w <> Pending)
    by (destruct (candidacy w); auto).
  destruct Hdec as [Hca|Hca].
  - specialize (HJ Hca). pose proof (inv_fresh w HI) as Hf.
    revert HJ Hf Hstep Hca' Hca. clear. unfold Joining, step.
    destruct w as [d c wa wd ca h cbs mb cl nw nc]; simpl.
    intros (-> & -> & -> & ->) Hf Hstep Hca' ->. revert Hstep.
    destruct e; unfold_methods; unfold_setters; simpl; try done.
    + destruct c; simpl; [done|]. destruct Hf as (_ & -> & _); [done|].
      by intros [= <-].
    + destruct c; simpl; [|done].
      destruct wd; simpl; by intros [= <-].
    + destruct c; simpl; [|done].
      destruct r; simpl; try done; intros [= <-]; done.
  - exfalso. apply Hca. rewrite <- Hca'. symmetry.
    apply (step_candidacy e); [done..|].
    intros Hc. by destruct (inv_fresh w HI Hc) as (_ & _ & ? & _).
Qed.

Lemma run_Joining es : forall w w',
  Inv w -> (candidacy w = Pending -> Joining w) -> run es w = Some w' ->
  candidacy w' = Pending -> Joining w'.
Proof.
  induction es as [|e es IH]; simpl; intros w w' HI HJ.
  - by intros [= <-].
  - destruct (step e w) as [w1|] eqn:E; [|done].
    apply IH; eauto using step_Inv, step_Joining.
Qed.

Lemma reachable_Joining w : reachable w -> candidacy w = Pending -> Joining w.
Proof.
  intros (d & es & H). apply (run_Joining es (init d)); auto using init_Inv.
  intros _. by repeat split.
Qed.

(** ** Withdrawing during the join *)

(** C7.  When [withdraw] is called while the join is pending, nothing is
    sent to the group and nothing is posted to the mailbox; a [cancel]
    continuation is waiting on the candidacy afterwards (the call that
    starts the withdrawal appends it).  When the group completes the
    join, that continuation is posted; delivering it runs [cancel], and
    [cancel] sends [Group::cancel] for the membership exactly when the
    candidacy is ready, and otherwise does nothing.  So from the world
    after the [withdraw]: when the join succeeds with [m], the two
    deliveries that follow ([joined], then [cancel]) end with
    [Group::cancel(m)] as the one request added and its answer the one
    outstanding; when the join fails, they end with no request added. *)
Theorem withdraw_during_join_defers_cancel w f w' :
  reachable w -> candidacy w = Pending -> withdraw w = Some (f, w') ->
  (calls w' = calls w /\ cancels w' = cancels w /\ mailbox w' = mailbox w) /\
  In CbCancel (cand_cbs w') /\
  (withdrawing w = None -> cand_cbs w' = cand_cbs w ++ [CbCancel]) /\
  (forall r w2, step (JoinDone r) w' = Some w2 ->
                candidacy w2 = r /\ In MCancel (mailbox w2)) /\
  (forall u m, candidacy u = Ready m ->
     cancel u = Some (tt, with_cancels (S (cancels u))
                            (with_calls (calls u ++ [GCancel m]) u))) /\
  (forall u, isReady (candidacy u) = false -> cancel u = Some (tt, u)) /\
  (forall u rest, mailbox u = MCancel :: rest ->
     step Deliver u = snd <$> cancel (with_mailbox rest u)) /\
  (forall m, exists w3,
     run [JoinDone (Ready m); Deliver; Deliver] w' = Some w3 /\
     calls w3 = calls w ++ [GCancel m] /\ cancels w3 = 1 /\ mailbox w3 = []) /\
  (forall msg, exists w3,
     run [JoinDone (Failed msg); Deliver; Deliver] w' = Some w3 /\
     calls w3 = calls w /\ cancels w3 = 0 /\ mailbox w3 = []).
Proof.
  intros Hr Hca Hw.
  pose proof (inv_pending_withdrawing w (reachable_Inv w Hr)) as Hq.
  pose proof (reachable_Joining w Hr Hca) as HJ.
  assert (Hcb : In CbCancel (cand_cbs w') /\
                calls w' = calls w /\ cancels w' = cancels w /\
                mailbox w' = mailbox w /\ candidacy w' = Pending /\
                contending w' <> None /\
                (withdrawing w = None -> cand_cbs w' = cand_cbs w ++ [CbCancel])).
  { revert Hca Hw Hq. clear. destruct w as [d c wa wd ca h cbs mb cl nw nc]; simpl.
    intros ->. unfold_methods; unfold_setters; simpl.
    destruct c as [c|]; simpl; [|done].
    destruct wd as [wd|]; simpl; intros [= <- <-] Hq; simpl.
    - repeat split; auto; done.
    - repeat split; auto; try done. apply in_app_iff; right; by left. }
  destruct Hcb as (Hin & Hcl & Hnc & Hmb & Hca' & Hc' & Hfirst).
  split; [done|]. split; [done|]. split; [done|].
  split; [|split; [|split; [|split; [|split]]]].
  - intros r w2. revert Hin Hca' Hc'. clear.
    destruct w' as [d c wa wd ca h cbs mb cl nw nc]; simpl. intros Hin -> Hc.
    unfold step; unfold_methods; unfold_setters; simpl.
    destruct c as [c|]; [|done]. simpl.
    destruct r; simpl; try done; intros [= <-]; simpl; (split; [done|]);
      apply in_app_iff; right; apply in_map_iff; by exists CbCancel.
  - intros [d c wa wd ca h cbs mb cl nw nc] m; simpl. by intros ->.
  - intros [d c wa wd ca h cbs mb cl nw nc]; simpl. by destruct ca.
  - intros [d c wa wd ca h cbs mb cl nw nc] rest; simpl. by intros ->.
  - intros m. revert Hca Hw HJ. clear. unfold Joining.
    destruct w as [d c wa wd ca h cbs mb cl nw nc]; simpl.
    intros -> Hw (-> & -> & -> & ->). revert Hw.
    unfold step; unfold_methods; unfold_setters; simpl.
    destruct c as [c|]; simpl; [|done].
    destruct wd as [wd|]; simpl; intros [= <- <-]; simpl;
      eexists; (split; [reflexivity|]); done.
  - intros msg. revert Hca Hw HJ. clear. unfold Joining.
    destruct w as [d c wa wd ca h cbs mb cl nw nc]; simpl.
    intros -> Hw (-> & -> & -> & ->). revert Hw.
    unfold step; unfold_methods; unfold_setters; simpl.
    destruct c as [c|]; simpl; [|done].
    destruct wd as [wd|]; simpl; intros [= <- <-]; simpl;
      destruct wa; simpl; eexists; (split; [reflexivity|]); done.
Qed.

Lemma withdraw_during_join_defers_cancel_witness :
  reachable (after [Contend]) /\
  candidacy (after [Contend]) = Pending /\
  withdraw (after [Contend]) = Some (1, after [Contend; Withdraw]) /\
  calls (after [Contend; Withdraw]) = calls (after [Contend]) /\
  In CbCancel (cand_cbs (after [Contend; Withdraw])) /\
  exists w3,
    run [JoinDone (Ready m7); Deliver; Deliver] (after [Contend; Withdraw])
    = Some w3 /\
    calls w3 = calls (after [Contend]) ++ [GCancel m7].
Proof.
  assert (Hr : reachable (after [Contend])) by (apply (after_reachable [Contend]); vm_compute; reflexivity).
  assert (Hca : candidacy (after [Contend]) = Pending)
    by (vm_compute; reflexivity).
  assert (Hw : withdraw (after [Contend]) = Some (1, after [Contend; Withdraw]))
    by (vm_compute; reflexivity).
  split; [exact Hr|]. split; [exact Hca|]. split; [exact Hw|].
  destruct (withdraw_during_join_defers_cancel
              (after [Contend]) 1 (after [Contend; Withdraw]) Hr Hca Hw)
    as ((Hcl & _) & Hin & _ & _ & _ & _ & _ & Hok & _).
  split; [exact Hcl|]. split; [exact Hin|].
  destruct (Hok m7) as (w3 & Hrun & Hcalls & _).
  exists w3. split; [exact Hrun | exact Hcalls].
Defined.

(** ** Watching one's own membership *)

(** C1, with the guard the code has.  Take a world of a run in which the
    next message is the answer of a watch.  Then the join has succeeded,
    the outer future is set, the inner promise is open and this is the
    only watch in flight.  Delivering the message does this.  When
    [withdraw] has not been called and the watch resolved with the set
    [ms]: if the candidacy is not in [ms], the inner promise is set and
    no watch is registered; if it is, [Group::watch(ms)] is registered,
    the one watch in flight again, and nothing else changes.  When
    [withdraw] has been called, whatever the watch resolved to, [watched]
    returns at once: the message is consumed and nothing else changes,
    so no promise is set and no watch is registered. *)
Theorem watched_checks_candidacy w r rest :
  reachable w ->
  mailbox w = MWatched r :: rest ->
  exists c v p m,
    contending w = Some c /\ heap w !! c = Some (Ready v) /\
    candidacy w = Ready m /\
    watching w = Some p /\ heap w !! p = Some Pending /\
    watches w = 0 /\ watched_in rest = 0 /\
    (forall ms, r = Ready ms -> withdrawing w = None -> count ms m = 0 ->
     step Deliver w =
       Some (with_heap (<[p := Ready VNothing]> (heap w)) (with_mailbox rest w))) /\
    (forall ms, r = Ready ms -> withdrawing w = None -> count ms m <> 0 ->
     step Deliver w =
       Some (with_watches 1
               (with_calls (calls w ++ [GWatch ms]) (with_mailbox rest w)))) /\
    (withdrawing w <> None -> step Deliver w = Some (with_mailbox rest w)).
Proof.
  intros Hr Hmb. pose proof (reachable_Inv w Hr) as HI.
  assert (Ht : tokens w <> 0) by (unfold tokens; rewrite Hmb; simpl; lia).
  destruct (inv_watch w HI Ht) as (c & v & p & m & Hc & Hhc & Hp & Hhp & Hca).
  pose proof (inv_tokens w HI) as Hle. unfold tokens in Hle.
  rewrite Hmb in Hle; simpl in Hle.
  exists c, v, p, m. repeat (split; [done || lia|]).
  revert Hmb Hc Hhc Hp Hhp Hca Hle. clear.
  destruct w as [d c' wa wd ca h cbs mb cl nw nc]; simpl.
  intros -> -> Hhc -> Hhp -> Hle. assert (nw = 0) as -> by lia.
  unfold step; unfold_methods; unfold_setters; simpl. rewrite Hhc; simpl.
  split; [|split].
  - intros ms -> -> Hcount. simpl.
    rewrite Hcount; simpl. unfold promise_set. by rewrite Hhp.
  - intros ms -> -> Hcount. simpl.
    destruct (count ms m) eqn:E; [done|]. simpl. done.
  - destruct wd as [q|]; [|done]. done.
Qed.

Lemma watched_checks_candidacy_witness :
  reachable (after (entered ++ [WatchDone (Ready [m8])])) /\
  mailbox (after (entered ++ [WatchDone (Ready [m8])])) = [MWatched (Ready [m8])] /\
  withdrawing (after (entered ++ [WatchDone (Ready [m8])])) = None /\
  exists c v p,
    contending (after (entered ++ [WatchDone (Ready [m8])])) = Some c /\
    heap (after (entered ++ [WatchDone (Ready [m8])])) !! c = Some (Ready v) /\
    candidacy (after (entered ++ [WatchDone (Ready [m8])])) = Ready m7 /\
    watching (after (entered ++ [WatchDone (Ready [m8])])) = Some p /\
    step Deliver (after (entered ++ [WatchDone (Ready [m8])]))
    = Some (with_heap
              (<[p := Ready VNothing]>
                 (heap (after (entered ++ [WatchDone (Ready [m8])]))))
              (with_mailbox [] (after (entered ++ [WatchDone (Ready [m8])])))).
Proof.
  assert (Hr : reachable (after (entered ++ [WatchDone (Ready [m8])])))
    by (apply (after_reachable (entered ++ [WatchDone (Ready [m8])]));
        vm_compute; reflexivity).
  assert (Hmb : mailbox (after (entered ++ [WatchDone (Ready [m8])]))
                = [MWatched (Ready [m8])]) by (vm_compute; reflexivity).
  assert (Hwd : withdrawing (after (entered ++ [WatchDone (Ready [m8])])) = None)
    by (vm_compute; reflexivity).
  split; [exact Hr|]. split; [exact Hmb|]. split; [exact Hwd|].
  destruct (watched_checks_candidacy _ (Ready [m8]) [] Hr Hmb)
    as (c & v & p & m & H1 & H2 & H3 & H4 & _ & _ & _ & H5 & _).
  assert (Hm : Ready m = Ready m7) by (rewrite <- H3; vm_compute; reflexivity).
  injection Hm as ->.
  exists c, v, p.
  split; [exact H1|]. split; [exact H2|]. split; [exact H3|]. split; [exact H4|].
  apply (H5 [m8]); [reflexivity | exact Hwd | vm_compute; reflexivity].
Defined.

(** C1 as stated does not hold once [withdraw] has been called: the
    join has succeeded and the outer future is set, but [watched]
    returns at once.  With the candidacy absent from the resolved set the
    inner promise stays pending; with the candidacy present no new watch
    is registered. *)
Lemma watched_after_withdraw_returns_early :
  exists w1 w1' w2 w2',
    run (entered ++ [Withdraw; WatchDone (Ready [m8])]) (init master) = Some w1 /\
    candidacy w1 = Ready m7 /\ contending w1 = Some 0 /\
    heap w1 !! 0 = Some (Ready (VFuture 1)) /\ watching w1 = Some 1 /\
    mailbox w1 = [MWatched (Ready [m8])] /\ count [m8] m7 = 0 /\
    step Deliver w1 = Some w1' /\ heap w1' !! 1 = Some Pending /\
    run (entered ++ [Withdraw; WatchDone (Ready [m7; m8])]) (init master) = Some w2 /\
    candidacy w2 = Ready m7 /\ contending w2 = Some 0 /\
    heap w2 !! 0 = Some (Ready (VFuture 1)) /\
    mailbox w2 = [MWatched (Ready [m7; m8])] /\ count [m7; m8] m7 = 1 /\
    step Deliver w2 = Some w2' /\
    calls w2' = calls w2 /\ watches w2' = 0 /\ mailbox w2' = [].
Proof.
  do 4 eexists.
  split; [vm_compute; reflexivity|].
  do 6 (split; [reflexivity|]).
  split; [vm_compute; reflexivity|]. split; [reflexivity|].
  split; [vm_compute; reflexivity|].
  do 5 (split; [reflexivity|]).
  split; [vm_compute; reflexivity|]. by repeat split.
Qed.

(** ** Joining after the withdrawal has started *)

Ltac wd_field :=
  unfold tokens in *; simpl in *;
  rewrite ?watched_in_app, ?watched_in_deferred, ?no_watch_snoc in *;
  simpl in *;
  intros; simplify_eq;
  try match goal with
  | |- exists _, _ => eexists; split; [reflexivity|]
  end;
  heap_lookup;
  first [ done | lia | eauto; fail | rewrite andb_true_r; eauto; fail ].

Lemma step_Withdrawn e w w' :
  Inv w -> withdrawing w <> None ->
  (isFailed (candidacy w) = false -> Withdrawn w) ->
  step e w = Some w' ->
  withdrawing w' <> None /\ (isFailed (candidacy w') = false -> Withdrawn w').
Proof.
  intros HI Hwd HW Hstep. split.
  { destruct (withdrawing w) as [p|] eqn:E; [|done].
    destruct (step_slots_kept _ _ _ Hstep) as (_ & _ & Hk).
    by rewrite (Hk _ E). }
  revert HI Hwd HW Hstep. unfold step.
  destruct w as [d c wa wd ca h cbs mb cl nw nc].
  intros [Hcv Hwv Hdv Hcw Hcd Hwd' Htok Hwatch Hpw Hpc Hpcl Hpd Hfresh].
  simpl in *. intros Hwd HW.
  destruct wd as [wd|]; [clear Hwd|done].
  destruct c as [c|]; [|by destruct (Hfresh eq_refl) as (_ & ? & _)].
  slot_facts.
  assert (HW' : isFailed ca = false ->
                h !! c = Some Pending /\ wa = None /\
                forallb (fun c => negb (is_watch c)) cl = true /\
                nw + watched_in mb = 0).
  { intros Hf. destruct (HW Hf) as [(c' & [= <-] & ?) ? ? ?]. auto. }
  clear HW.
  destruct e; unfold_methods; unfold_setters; simpl; try discriminate.
  - intros [= <-]; simpl. intros Hf. destruct (HW' Hf) as (? & -> & ? & ?).
    constructor; wd_field.
  - destruct ca; simpl; try discriminate;
      (destruct r; simpl; try discriminate); intros [= <-]; simpl; intros Hf;
      try discriminate;
      destruct (HW' eq_refl) as (? & -> & ? & ?); constructor; wd_field.
  - destruct nw; simpl; [discriminate|].
    destruct r; simpl; try discriminate; intros [= <-]; simpl; intros Hf;
      destruct (HW' Hf) as (? & -> & ? & ?); lia.
  - destruct nc; simpl; [discriminate|].
    destruct r; simpl; try discriminate; intros [= <-]; simpl; intros Hf;
      destruct (HW' Hf) as (? & -> & ? & ?); constructor; wd_field.
  - destruct mb as [|m rest]; simpl; [discriminate|].
    destruct m; simpl.
    + destruct ca; simpl; try discriminate.
      * intros [= <-]; simpl; intros Hf.
        destruct (HW' Hf) as (? & -> & ? & ?); constructor; wd_field.
      * destruct wa; simpl; intros [= <-]; simpl; discriminate.
    + destruct ca; simpl; intros [= <-]; simpl; intros Hf;
        try discriminate;
        destruct (HW' Hf) as (? & -> & ? & ?); constructor; wd_field.
    + destruct (h !! c) as [[]|]; simpl; try discriminate.
      intros [= <-]; simpl; intros Hf.
      destruct (HW' Hf) as (? & -> & ? & ?). simpl in *. lia.
    + destruct ca; simpl; try discriminate.
      intros [= <-]; simpl; intros Hf.
      destruct (HW' Hf) as (? & -> & ? & ?); constructor; wd_field.
Qed.

Lemma run_Withdrawn es : forall w w',
  Inv w -> withdrawing w <> None ->
  (isFailed (candidacy w) = false -> Withdrawn w) ->
  run es w = Some w' ->
  withdrawing w' <> None /\ (isFailed (candidacy w') = false -> Withdrawn w').
Proof.
  induction es as [|e es IH]; simpl; intros w w' HI Hwd HW.
  - by intros [= <-].
  - destruct (step e w) as [w1|] eqn:E; [|done].
    destruct (step_Withdrawn _ _ _ HI Hwd HW E). eauto using step_Inv.
Qed.

Lemma withdraw_pending_Withdrawn w f w' :
  Inv w -> candidacy w = Pending -> withdraw w = Some (f, w') ->
  withdrawing w' <> None /\ Withdrawn w'.
Proof.
  inv_pre w; intros ->; unfold_methods; unfold_setters; simpl;
    try discriminate; intros [= <- <-]; simpl; (split; [done|]);
    specialize (Hpc eq_refl); specialize (Hpcl eq_refl);
    (assert (nw + watched_in mb = 0) by
       (destruct (Nat.eq_dec (nw + watched_in mb) 0) as [|Hne]; [done|];
        destruct (Hwatch Hne) as (? & ? & ? & ? & ? & ? & ? & ? & ?); done));
    try discriminate (Hpw eq_refl);
    constructor; wd_field.
Qed.

(** C10.  Let [withdraw] be called in a reachable world where the join
    is pending, and let the run go on in any way.  Whenever the join has
    succeeded by then, the withdrawing slot is assigned and [joined]
    returns without doing anything; the outer promise is still pending,
    the watching slot is unassigned, no watch was ever requested from the
    group and none is in flight. *)
Theorem withdraw_before_join_never_enters w f w1 es w2 m :
  reachable w -> candidacy w = Pending -> withdraw w = Some (f, w1) ->
  run es w1 = Some w2 -> candidacy w2 = Ready m ->
  withdrawing w2 <> None /\
  joined w2 = Some (tt, w2) /\
  (exists c, contending w2 = Some c /\ heap w2 !! c = Some Pending) /\
  watching w2 = None /\
  (forall ms, ~ In (GWatch ms) (calls w2)) /\
  watches w2 = 0 /\ watched_in (mailbox w2) = 0.
Proof.
  intros Hr Hca Hw Hrun Hca2.
  pose proof (reachable_Inv w Hr) as HI.
  destruct (withdraw_pending_Withdrawn _ _ _ HI Hca Hw) as (Hwd1 & HW1).
  destruct (run_Withdrawn es w1 w2 (withdraw_Inv _ _ _ HI Hw) Hwd1
              (fun _ => HW1) Hrun) as (Hwd2 & HW2).
  destruct HW2 as [Hc Hwa Hcl Ht]; [by rewrite Hca2|].
  split; [done|]. split.
  { revert Hwd2 Hca2. clear. destruct w2 as [d c wa wd ca h cbs mb cl nw nc].
    simpl. intros Hwd ->. unfold_methods. simpl. by destruct wd. }
  split; [done|]. split; [done|]. unfold tokens in Ht. split; [|lia].
  intros ms Hin. rewrite forallb_forall in Hcl. by specialize (Hcl _ Hin).
Qed.

Lemma withdraw_before_join_never_enters_witness :
  reachable (after [Contend]) /\
  candidacy (after [Contend]) = Pending /\
  withdraw (after [Contend]) = Some (1, after [Contend; Withdraw]) /\
  run [JoinDone (Ready m7); Deliver; Deliver; CancelDone (Ready true); Deliver]
      (after [Contend; Withdraw])
  = Some (after [Contend; Withdraw; JoinDone (Ready m7); Deliver; Deliver;
                 CancelDone (Ready true); Deliver]) /\
  candidacy (after [Contend; Withdraw; JoinDone (Ready m7); Deliver; Deliver;
                    CancelDone (Ready true); Deliver]) = Ready m7 /\
  watching (after [Contend; Withdraw; JoinDone (Ready m7); Deliver; Deliver;
                   CancelDone (Ready true); Deliver]) = None /\
  (forall ms, ~ In (GWatch ms)
     (calls (after [Contend; Withdraw; JoinDone (Ready m7); Deliver; Deliver;
                    CancelDone (Ready true); Deliver]))).
Proof.
  assert (Hr : reachable (after [Contend]))
    by (apply (after_reachable [Contend]); vm_compute; reflexivity).
  assert (Hca : candidacy (after [Contend]) = Pending)
    by (vm_compute; reflexivity).
  assert (Hw : withdraw (after [Contend]) = Some (1, after [Contend; Withdraw]))
    by (vm_compute; reflexivity).
  assert (Hrun :
    run [JoinDone (Ready m7); Deliver; Deliver; CancelDone (Ready true); Deliver]
        (after [Contend; Withdraw])
    = Some (after [Contend; Withdraw; JoinDone (Ready m7); Deliver; Deliver;
                   CancelDone (Ready true); Deliver]))
    by (vm_compute; reflexivity).
  assert (Hca2 :
    candidacy (after [Contend; Withdraw; JoinDone (Ready m7); Deliver; Deliver;
                      CancelDone (Ready true); Deliver]) = Ready m7)
    by (vm_compute; reflexivity).
  do 5 (split; [assumption|]).
  destruct (withdraw_before_join_never_enters _ _ _ _ _ _ Hr Hca Hw Hrun Hca2)
    as (_ & _ & _ & Hwa & Hcl & _).
  split; [exact Hwa | exact Hcl].
Defined.

(** ** The factory *)

Lemma startsWith_nonempty s a p : startsWith s (String a p) = true -> s <> "".
Proof. intros H ->. discriminate H. Qed.

Lemma startsWith_cons a p b s :
  startsWith (String b s) (String a p) = Ascii.eqb a b && startsWith s p.
Proof. reflexivity. Qed.

Lemma startsWith_file_not_zk s :
  startsWith s "file://" = true -> startsWith s "zk://" = false.
Proof.
  destruct s as [|a s]; [done|]. rewrite !startsWith_cons.
  destruct (Ascii.eqb_spec "f" a) as [<-|]; [|done]. reflexivity.
Qed.

Section CreateProperties.

Variable URL : Type.
Variable path : URL -> string.
Variable URL_parse : string -> Try URL.
Variable os_read : string -> Try string.

Local Abbreviation create := (create URL path URL_parse os_read).

Lemma create_fuel_mono fuel : forall zk r fuel',
  create fuel zk = Some r -> fuel <= fuel' -> create fuel' zk = Some r.
Proof.
  induction fuel as [|fuel IH]; simpl; intros zk r fuel' H Hle; [done|].
  destruct fuel' as [|fuel']; [lia|]. simpl.
  destruct (String.eqb zk ""); [done|].
  destruct (startsWith zk "zk://"); [done|].
  destruct (startsWith zk "file://"); [|done].
  destruct (os_read (substr zk 7)); [|done].
  apply IH; [done | lia].
Qed.

(** C8.  [create] on [zk], with fuel for at least this call:
    - the empty string gives a [StandaloneMasterContender];
    - a string starting with [zk://] is parsed: a parse error is returned
      as it is, a URL whose path is [/] is rejected, any other URL gives a
      [ZooKeeperMasterContender];
    - a string starting with [file://] names a file: if it cannot be read
      the result is an error, otherwise the result is that of [create]
      on the trimmed contents;
    - any other string gives an error.
    A result, once obtained, does not depend on the fuel. *)
Theorem create_by_cases (fuel : nat) (zk : string) :
  (zk = "" -> create (S fuel) zk = Some (TryOk StandaloneMasterContender)) /\
  (startsWith zk "zk://" = true ->
     (forall e, URL_parse zk = TryError e ->
        create (S fuel) zk = Some (TryError e)) /\
     (forall url, URL_parse zk = TryOk url -> path url = "/" ->
        create (S fuel) zk =
        Some (TryError
          "Expecting a (chroot) path for ZooKeeper ('/' is not supported)")) /\
     (forall url, URL_parse zk = TryOk url -> path url <> "/" ->
        create (S fuel) zk = Some (TryOk (ZooKeeperMasterContender url)))) /\
  (startsWith zk "file://" = true ->
     (forall e, os_read (substr zk 7) = TryError e ->
        create (S fuel) zk =
        Some (TryError (String.append "Failed to read from file at '"
                          (String.append (substr zk 7) "'")))) /\
     (forall contents, os_read (substr zk 7) = TryOk contents ->
        create (S fuel) zk = create fuel (trim contents))) /\
  (zk <> "" -> startsWith zk "zk://" = false ->
   startsWith zk "file://" = false ->
     create (S fuel) zk =
     Some (TryError (String.append "Failed to parse '" (String.append zk "'")))) /\
  (forall r fuel', create fuel zk = Some r -> fuel <= fuel' ->
     create fuel' zk = Some r).
Proof.
  split; [by intros ->|]. split; [|split; [|split]].
  - intros Hzk. pose proof (startsWith_nonempty _ _ _ Hzk) as Hne.
    apply String.eqb_neq in Hne. simpl. rewrite Hne, Hzk.
    split; [by intros e ->|]. split; intros url ->.
    + by intros ->.
    + intros Hp. apply String.eqb_neq in Hp. by rewrite Hp.
  - intros Hf. pose proof (startsWith_nonempty _ _ _ Hf) as Hne.
    apply String.eqb_neq in Hne. simpl.
    rewrite Hne, (startsWith_file_not_zk _ Hf), Hf.
    split; [by intros e ->|]. by intros contents ->.
  - intros Hne Hzk Hf. apply String.eqb_neq in Hne. simpl.
    by rewrite Hne, Hzk, Hf.
  - intros r fuel'. apply create_fuel_mono.
Qed.

End CreateProperties.

Lemma create_by_cases_witness :
  startsWith "file:///etc/mesos/zk" "file://" = true /\
  demo_read (substr "file:///etc/mesos/zk" 7)
  = TryOk (String.append "  zk://10.0.0.1:2181/mesos"
             (String (ascii_of_nat 10) EmptyString)) /\
  create string (fun u => u) demo_parse demo_read 2 "file:///etc/mesos/zk"
  = create string (fun u => u) demo_parse demo_read 1
      (trim (String.append "  zk://10.0.0.1:2181/mesos"
               (String (ascii_of_nat 10) EmptyString))) /\
  startsWith "zk://10.0.0.1:2181/mesos" "zk://" = true /\
  demo_parse "zk://10.0.0.1:2181/mesos" = TryOk "/mesos" /\
  create string (fun u => u) demo_parse demo_read 1 "zk://10.0.0.1:2181/mesos"
  = Some (TryOk (ZooKeeperMasterContender "/mesos")) /\
  create string (fun u => u) demo_parse demo_read 1 "" =
    Some (TryOk StandaloneMasterContender) /\
  create string (fun u => u) demo_parse demo_read 1 "mesos" =
    Some (TryError "Failed to parse 'mesos'").
Proof.
  destruct (create_by_cases string (fun u => u) demo_parse demo_read 1
              "file:///etc/mesos/zk") as (_ & _ & Hfile & _).
  destruct (create_by_cases string (fun u => u) demo_parse demo_read 0
              "zk://10.0.0.1:2181/mesos") as (_ & Hzk & _).
  destruct (create_by_cases string (fun u => u) demo_parse demo_read 0 "")
    as (Hempty & _).
  destruct (create_by_cases string (fun u => u) demo_parse demo_read 0 "mesos")
    as (_ & _ & _ & Hother & _).
  split; [reflexivity|]. split; [reflexivity|].
  split; [apply (proj2 (Hfile eq_refl)); reflexivity|].
  split; [reflexivity|]. split; [reflexivity|].
  split; [apply (proj2 (proj2 (Hzk eq_refl))); [reflexivity | discriminate]|].
  split; [apply Hempty; reflexivity|].
  apply Hother; [discriminate | reflexivity | reflexivity].
Defined.

(** * Further properties of the code *)

(** ** More invariants of the run *)

Lemma count_if_app {A} (f : A -> bool) l l' :
  count_if f (l ++ l') = count_if f l + count_if f l'.
Proof. induction l as [|x l IH]; simpl; [done|]. rewrite IH. lia. Qed.

Lemma count_if_deferred_joined cbs :
  count_if is_m_joined (map deferred cbs) = count_if is_cb_joined cbs.
Proof. induction cbs as [|[] cbs IH]; simpl; auto. Qed.

Lemma count_if_deferred_cancel cbs :
  count_if is_m_cancel (map deferred cbs) = count_if is_cb_cancel cbs.
Proof. induction cbs as [|[] cbs IH]; simpl; auto. Qed.

Lemma count_if_deferred_cancelled cbs :
  count_if is_m_cancelled (map deferred cbs) = 0.
Proof. induction cbs as [|[] cbs IH]; simpl; auto. Qed.

Lemma settled_deferred cbs : forallb settled (map deferred cbs) = true.
Proof. induction cbs as [|[] cbs IH]; simpl; auto. Qed.

Lemma count_if_none {A} (f : A -> bool) l x :
  count_if f l = 0 -> In x l -> f x = false.
Proof.
  induction l as [|y l IH]; simpl; [done|].
  intros H [->|Hin]; [destruct (f x); [lia | done] | apply IH; [lia | done]].
Qed.

Lemma promise_fail_ready p msg (h : Heap) q v :
  snd (promise_fail p msg h) !! q = Some (Ready v) -> h !! q = Some (Ready v).
Proof.
  rewrite promise_fail_lookup. case_decide; [|done].
  destruct (h !! q) as [[]|]; simpl; congruence.
Qed.

Ltac inv2_pre w :=
  destruct w as [d c wa wd ca h cbs mb cl nw nc];
  intros [Hcv Hwv Hdv Hcw Hcd Hwd Htok Hwatch Hpw Hpc Hpcl Hpd Hfresh]
         [Jcbs Jmj Jj Jjs Jw Jo Jjoin Konce Kasked Kstate Ksent Kans Kanss Jfresh];
  unfold tokens, joins_due, cancels_due, cancels_sent, answers_due in *;
  simpl in *;
  destruct c as [c|], wa as [wa|], wd as [wd|]; slot_facts;
  try solve [destruct (Hfresh eq_refl) as (? & ? & ? & ?); discriminate];
  try match goal with
  | H : forall c v, Some ?x = Some c -> _ |- _ =>
      specialize (fun v => H x v eq_refl)
  end;
  try match goal with
  | H : forall c v, None = Some c -> _ |- _ => clear H
  end.

Ltac break_hyps :=
  repeat match goal with
  | H : _ /\ _ |- _ => destruct H
  | H : exists _, _ |- _ => destruct H
  end.

Ltac heap_lookup_hyps :=
  repeat match goal with
  | H : context [ (?h ++ [?x]) !! length ?h ] |- _ =>
      rewrite (lookup_snoc_new h x) in H
  | H : context [ (?h ++ [?x]) !! ?p ] |- _ =>
      rewrite (lookup_snoc_old h x p) in H by heap_lt
  | H : context [ <[?p := ?x]> ?h !! ?p ] |- _ =>
      rewrite (list_lookup_insert_eq h p x) in H by heap_lt
  | H : context [ <[?p := ?x]> ?h !! ?q ] |- _ =>
      rewrite (list_lookup_insert_ne h p q x) in H by lia
  | H : context [ snd (promise_associate ?p ?f ?h) !! ?q ] |- _ =>
      rewrite (promise_associate_other p f h q) in H by lia
  | H : snd (promise_fail _ _ _) !! _ = Some (Ready _) |- _ =>
      apply promise_fail_ready in H
  end.

(* Use each implication of the invariants once: forwards when its
   premise holds, backwards when its conclusion is absurd. *)
Ltac use_hyps :=
  repeat match goal with
  | H : ?t <> 0 -> _ |- _ =>
      first
        [ let E := fresh in
          assert (E : t = 0)
            by (destruct (Nat.eq_dec t 0) as [|E]; [assumption|];
                exfalso; specialize (H E); break_hyps;
                first [done | congruence]);
          clear H
        | let HP := fresh in
          assert (HP : t <> 0) by lia; specialize (H HP); clear HP
        | revert H ]
  | H : ?P -> _ |- _ =>
      first
        [ let HP := fresh in
          assert (HP : P) by (first [done | congruence]);
          specialize (H HP); clear HP
        | revert H ]
  end;
  intros.

Ltac inv2_stage1 :=
  unfold tokens, joins_due, cancels_due, cancels_sent, answers_due in *;
  simpl in *;
  rewrite ?count_if_app, ?count_if_deferred_joined, ?count_if_deferred_cancel,
    ?count_if_deferred_cancelled, ?watched_in_app, ?watched_in_deferred in *;
  simpl in *;
  intros;
  repeat match goal with
  | H : In _ (_ ++ _) |- _ => apply in_app_iff in H; destruct H as [H|H]
  | H : forall m, In (GCancel m) ?l -> _, H2 : In (GCancel _) ?l |- _ =>
      apply H in H2
  | H : In _ (_ :: _) |- _ => destruct H as [H|H]
  | H : In _ [] |- _ => destruct H
  | H : _ \/ _ |- _ => destruct H
  | H : False |- _ => destruct H
  end;
  simplify_eq;
  use_hyps;
  break_hyps;
  simplify_eq;
  heap_lookup_hyps; simplify_eq;
  try match goal with
  | H : forall v, ?h !! ?c = Some (Ready v) -> _,
    H2 : ?h !! ?c = Some (Ready ?v) |- _ =>
      destruct (H v H2) as (? & ? & ?); clear H
  | H : forall E, Some (Ready ?v) = Some (Ready E) -> _ |- _ =>
      destruct (H v eq_refl) as (? & ? & ?); clear H
  end;
  simplify_eq.

Ltac inv2_stage2 :=
  simpl in *;
  try solve [exfalso; first [lia | congruence | done]];
  repeat match goal with
  | |- _ /\ _ => split
  | |- exists _, _ => eexists
  end;
  intros; simplify_eq; try reflexivity;
  heap_lookup_hyps; heap_lookup; simplify_eq;
  first [ done | heap_len; lia | eauto; fail | congruence
        | rewrite ?count_if_app; simpl; lia ].

Ltac inv2_field := inv2_stage1; inv2_stage2.

Ltac inv2_post := constructor; inv2_field.

Lemma contend_Inv2 w p w' :
  Inv w -> Inv2 w -> contend w = Some (p, w') -> Inv2 w'.
Proof.
  inv2_pre w; unfold_methods; unfold_setters; simpl; try discriminate.
  destruct (Hfresh eq_refl) as (_ & _ & -> & ->).
  destruct (Jfresh eq_refl) as (-> & -> & ->).
  intros [= <- <-]. inv2_post.
Qed.

Lemma withdraw_Inv2 w p w' :
  Inv w -> Inv2 w -> withdraw w = Some (p, w') -> Inv2 w'.
Proof.
  inv2_pre w; unfold_methods; unfold_setters; simpl; try discriminate;
  try (intros [= <- <-]; inv2_post);
  destruct ca as [|m|msg|]; simpl; intros [= <- <-]; inv2_post.
Qed.

Lemma pop_Inv2 w m rest :
  Inv2 w -> mailbox w = m :: rest -> Inv2 (with_mailbox rest w).
Proof.
  destruct w as [d c wa wd ca h cbs mb cl nw nc].
  intros [Jcbs Jmj Jj Jjs Jw Jo Jjoin Konce Kasked Kstate Ksent Kans Kanss Jfresh].
  unfold_setters; simpl in *; intros ->.
  destruct m; constructor; simpl; try done;
    unfold joins_due, cancels_due, cancels_sent, answers_due in *; simpl in *;
    try lia; intros;
    first [ apply Jmj | apply Jjs | apply Kasked | apply Kstate | apply Kanss
          | idtac ]; try lia.
  all: destruct c; [|by destruct (Jfresh eq_refl)]; done.
Qed.

Lemma cancel_Inv2 w w' :
  Inv w -> Inv2 w -> cancels_due w + cancels_sent w = 0 ->
  (exists q, withdrawing w = Some q /\
     (isFailed (candidacy w) = false -> heap w !! q = Some Pending)) ->
  cancel w = Some (tt, w') -> Inv2 w'.
Proof.
  inv2_pre w; unfold_methods; unfold_setters; simpl;
    intros Hz (q & Hq & Hcell); simplify_eq;
    destruct ca as [|m|msg|]; simpl; intros [= <-]; inv2_post.
Qed.

Lemma cancelled_Inv2 r w w' :
  Inv w -> Inv2 w -> answers_due w = 0 -> cancels_due w = 0 ->
  cancelled r w = Some (tt, w') -> Inv2 w'.
Proof.
  inv2_pre w; unfold_methods; unfold_setters; simpl; intros Hz Hz';
    destruct ca as [|m|msg|]; simpl; try discriminate;
    intros [= <-]; inv2_post.
Qed.

Lemma joined_Inv2 w w' :
  Inv w -> Inv2 w -> joins_due w = 0 ->
  joined w = Some (tt, w') -> Inv2 w'.
Proof.
  inv2_pre w; unfold_methods; unfold_setters; simpl; intros Hz;
    destruct ca as [|m|msg|]; simpl; try discriminate;
    try (intros [= <-]; inv2_post).
  all: unfold promise_set; rewrite lookup_snoc_old by done.
  all: destruct (h !! c) as [[]|] eqn:Hc; simpl; intros [= <-]; inv2_post.
Qed.

Lemma watched_Inv2 r w w' :
  Inv w -> Inv2 w ->
  (forall p, watching w = Some p -> heap w !! p = Some Pending) ->
  watched r w = Some (tt, w') -> Inv2 w'.
Proof.
  inv2_pre w; unfold_methods; unfold_setters; simpl; intros Hp;
    try discriminate;
    (destruct (h !! c) as [[]|] eqn:Hc; simpl; try discriminate);
    try (intros [= <-]; inv2_post);
    (destruct r as [|ms|msg|]; simpl; try discriminate);
    try (intros [= <-]; inv2_post);
    (destruct ca as [|m|msg'|]; simpl; try discriminate);
    (destruct (count ms m =? 0); simpl);
    try (intros [= <-]; inv2_post).
  all: unfold promise_set; rewrite (Hp _ eq_refl); simpl; intros [= <-]; inv2_post.
Qed.

Lemma step_Inv2 e w w' : Inv w -> Inv2 w -> step e w = Some w' -> Inv2 w'.
Proof.
  intros HI HJ. unfold step.
  destruct (exec e w) as [[[] w'']|] eqn:He; [|done].
  simpl. intros [= <-]. revert He. destruct e; simpl.
  - unfold bind at 1. destruct (contend w) as [[p w1]|] eqn:E; [|done].
    intros [= <-]. eauto using contend_Inv2.
  - unfold bind at 1. destruct (withdraw w) as [[p w1]|] eqn:E; [|done].
    intros [= <-]. eauto using withdraw_Inv2.
  - revert HI HJ. inv2_pre w; unfold_methods; unfold_setters; simpl;
      try discriminate;
      (destruct ca; simpl; try discriminate);
      (destruct r; simpl; try discriminate); intros [= <-]; inv2_post.
  - revert HI HJ. inv2_pre w; unfold_methods; unfold_setters; simpl;
      (destruct nw; simpl; try discriminate);
      (destruct r; simpl; try discriminate); intros [= <-]; inv2_post.
  - revert HI HJ. inv2_pre w; unfold_methods; unfold_setters; simpl;
      (destruct nc; simpl; try discriminate);
      (destruct r; simpl; try discriminate); intros [= <-]; inv2_post.
  - unfold bind at 1, get. destruct (mailbox w) as [|m rest] eqn:Hmb; [done|].
    unfold bind at 1, modify.
    pose proof (pop_Inv w m rest HI Hmb) as HI'.
    pose proof (pop_Inv2 w m rest HJ Hmb) as HJ'.
    pose proof (i2_joins w HJ) as Hj.
    pose proof (i2_cancel_once w HJ) as Hk.
    pose proof (i2_answers w HJ) as Ha.
    pose proof (i2_cancel_state w HJ) as Hs.
    unfold joins_due, cancels_due, cancels_sent, answers_due in *.
    rewrite Hmb in *.
    destruct m; simpl in *.
    + apply joined_Inv2; auto.
      unfold joins_due. destruct w; simpl in *. lia.
    + apply cancel_Inv2; auto.
      * unfold cancels_due, cancels_sent. destruct w; simpl in *. lia.
      * destruct Hs as (q & Hq & Hcell); [lia|]. exists q.
        destruct w; simpl in *. auto.
    + assert (Ht : tokens w <> 0) by (unfold tokens; rewrite Hmb; simpl; lia).
      destruct (inv_watch w HI Ht) as (c & v & p & m & Hc & Hhc & Hp & Hhp & Hca).
      apply watched_Inv2; auto.
      destruct w; simpl in *. intros ? ?; congruence.
    + apply cancelled_Inv2; auto.
      * unfold answers_due. destruct w; simpl in *. lia.
      * unfold cancels_due. destruct w; simpl in *. lia.
Qed.

Lemma init_Inv2 d : Inv2 (init d).
Proof.
  constructor; simpl; try done;
    unfold joins_due, cancels_due, cancels_sent, answers_due; simpl; lia.
Qed.

Lemma run_Inv2 es : forall w w',
  Inv w -> Inv2 w -> run es w = Some w' -> Inv2 w'.
Proof.
  induction es as [|e es IH]; simpl; intros w w' HI HJ.
  - by intros [= <-].
  - destruct (step e w) as [w1|] eqn:E; [|done].
    eauto using step_Inv, step_Inv2.
Qed.

Lemma reachable_Inv2 w : reachable w -> Inv2 w.
Proof. intros (d & es & H). eauto using run_Inv2, init_Inv, init_Inv2. Qed.

(** ** The data of a contender *)

Lemma step_data e w w' : step e w = Some w' -> data w' = data w.
Proof.
  unfold step. destruct (exec e w) as [[[] w1]|] eqn:He; [|done].
  simpl; intros [= <-]. revert He.
  destruct e; simpl.
  - destruct w as [d c wa wd ca h cbs mb cl nw nc].
    unfold_methods; unfold_setters; simpl.
    destruct c; simpl; [done|]. by intros [= <-].
  - destruct w as [d c wa wd ca h cbs mb cl nw nc].
    unfold_methods; unfold_setters; simpl.
    destruct c; simpl; [|done].
    destruct wd; simpl; [by intros [= <-]|].
    destruct ca; simpl; intros [= <-]; done.
  - destruct w as [d c wa wd ca h cbs mb cl nw nc].
    unfold_methods; unfold_setters; simpl.
    match goal with |- context [if ?b then _ else _] => destruct b end;
      simpl; [|done]. by intros [= <-].
  - destruct w as [d c wa wd ca h cbs mb cl nw nc].
    unfold_methods; unfold_setters; simpl.
    destruct nw; simpl; [done|].
    destruct r; simpl; try done; by intros [= <-].
  - destruct w as [d c wa wd ca h cbs mb cl nw nc].
    unfold_methods; unfold_setters; simpl.
    destruct nc; simpl; [done|].
    destruct r; simpl; try done; by intros [= <-].
  - unfold bind at 1, get.
    destruct (mailbox w) as [|m rest] eqn:Hmb; [done|].
    unfold bind at 1, modify. intros He.
    destruct (handle_frame _ _ _ He) as (-> & _). by destruct w.
Qed.

Lemma run_data es : forall w w', run es w = Some w' -> data w' = data w.
Proof.
  induction es as [|e es IH]; simpl; intros w w'.
  - by intros [= <-].
  - destruct (step e w) as [w1|] eqn:E; [|done].
    intros H. rewrite (IH _ _ H). eauto using step_data.
Qed.

Lemma forallb_settled_app mb mb' :
  forallb settled (mb ++ mb') = forallb settled mb && forallb settled mb'.
Proof. apply forallb_app. Qed.

Lemma step_Inv3 e w w' :
  polite e = true -> Inv3 w -> step e w = Some w' -> Inv3 w'.
Proof.
  intros Hpol [Hca Hmb]. unfold step.
  destruct (exec e w) as [[[] w1]|] eqn:He; [|done].
  simpl; intros [= <-]. revert He.
  destruct e; simpl.
  - destruct w as [d c wa wd ca h cbs mb cl nw nc].
    unfold_methods; unfold_setters; simpl in *.
    destruct c; simpl; [done|]. intros [= <-]. by constructor.
  - destruct w as [d c wa wd ca h cbs mb cl nw nc].
    unfold_methods; unfold_setters; simpl in *.
    destruct c; simpl; [|done].
    destruct wd; simpl; [by intros [= <-]|].
    destruct ca; simpl; intros [= <-]; by constructor.
  - destruct w as [d c wa wd ca h cbs mb cl nw nc].
    unfold_methods; unfold_setters; simpl in *.
    destruct c; simpl; [|done]. destruct ca; simpl; try done.
    destruct r; simpl in *; try done; intros [= <-]; constructor; simpl;
      try done; by rewrite forallb_settled_app, Hmb, settled_deferred.
  - destruct w as [d c wa wd ca h cbs mb cl nw nc].
    unfold_methods; unfold_setters; simpl in *.
    destruct nw; simpl; [done|].
    destruct r; simpl in *; try done; intros [= <-]; constructor; simpl;
      try done; by rewrite forallb_settled_app, Hmb.
  - destruct w as [d c wa wd ca h cbs mb cl nw nc].
    unfold_methods; unfold_setters; simpl in *.
    destruct nc; simpl; [done|].
    destruct r; simpl in *; try done; intros [= <-]; constructor; simpl;
      try done; by rewrite forallb_settled_app, Hmb.
  - unfold bind at 1, get.
    destruct (mailbox w) as [|m rest] eqn:Hm; [done|].
    unfold bind at 1, modify. intros He.
    destruct (handle_frame _ _ _ He) as (_ & Hc & _ & Hb).
    constructor; rewrite ?Hc, ?Hb.
    + by destruct w.
    + destruct w; simpl in *. subst. simpl in Hmb.
      by apply andb_true_iff in Hmb as [_ ?].
Qed.

Lemma reachable_politely_all w :
  reachable_politely w -> Inv w /\ Inv2 w /\ Inv3 w.
Proof.
  intros (d & es & Hpol & Hrun).
  assert (Hr : reachable w) by (by exists d, es).
  split; [by apply reachable_Inv|]. split; [by apply reachable_Inv2|].
  assert (H0 : Inv3 (init d)) by (by constructor).
  revert Hpol Hrun H0. generalize (init d). clear Hr.
  induction es as [|e es IH]; simpl; intros w0 Hpol.
  - by intros [= <-].
  - apply andb_true_iff in Hpol as [He Hes].
    destruct (step e w0) as [w1|] eqn:E; [|done].
    intros Hrun H0. eapply IH; eauto using step_Inv3.
Qed.

(** X1.  As long as the group discards none of the futures it hands out,
    none of the assertions in the continuations of the contender fires:
    whatever has happened, the next deferred invocation runs to its end.
    (The same holds for [withdraw] once [contend] has been called.) *)
Theorem handlers_never_abort w :
  reachable_politely w ->
  (mailbox w <> [] -> is_Some (step Deliver w)) /\
  (contending w <> None -> is_Some (withdraw w)).
Proof.
  intros Hr. destruct (reachable_politely_all w Hr) as (HI & HJ & HK).
  split.
  - intros Hmb. destruct (mailbox w) as [|m rest] eqn:Hm; [done|]. clear Hmb.
    pose proof (i3_candidacy w HK) as Hnd.
    pose proof (i3_mailbox w HK) as Hset.
    pose proof (i2_mjoined w HJ) as Hmj.
    pose proof (i2_joins_state w HJ) as Hjs.
    pose proof (i2_answers_state w HJ) as Has.
    pose proof (inv_watch w HI) as Hw.
    unfold joins_due, answers_due, tokens in *. rewrite Hm in *.
    unfold step. destruct w as [d c wa wd ca h cbs mb cl nw nc].
    simpl in *. subst mb. unfold_methods; unfold_setters; simpl.
    destruct m as [| |r|r]; simpl in *.
    + destruct Hjs as (-> & c' & -> & Hc & _); [lia|].
      specialize (Hmj ltac:(lia)).
      destruct ca; simpl; try done.
      * destruct wd; simpl; [done|].
        unfold promise_set. rewrite lookup_snoc_old by (by eapply lookup_lt_Some).
        rewrite Hc. simpl. done.
      * destruct wd; simpl; done.
    + destruct ca; simpl; done.
    + destruct Hw as (c' & v & p & m & -> & Hc & -> & Hp & ->); [lia|].
      rewrite Hc. simpl. destruct wd; simpl; [done|].
      destruct r; simpl in *; try done.
      destruct (count v0 m =? 0); simpl; done.
    + destruct Has as (Hready & q & -> & Hq); [lia|].
      destruct ca; simpl in *; try done.
  - intros Hc. pose proof (i3_candidacy w HK) as Hnd.
    destruct w as [d c wa wd ca h cbs mb cl nw nc]. simpl in *.
    destruct c; [|done]. unfold_methods; unfold_setters; simpl.
    destruct wd; simpl; [done|]. destruct ca; simpl; done.
Qed.

Lemma handlers_never_abort_witness :
  reachable_politely (after (entered ++ [WatchDone (Ready [m8])])) /\
  mailbox (after (entered ++ [WatchDone (Ready [m8])])) <> [] /\
  is_Some (step Deliver (after (entered ++ [WatchDone (Ready [m8])]))).
Proof.
  assert (Hr : reachable_politely (after (entered ++ [WatchDone (Ready [m8])]))).
  { exists master, (entered ++ [WatchDone (Ready [m8])]).
    split; vm_compute; reflexivity. }
  assert (Hm : mailbox (after (entered ++ [WatchDone (Ready [m8])])) <> [])
    by (vm_compute; discriminate).
  split; [exact Hr|]. split; [exact Hm|].
  exact (proj1 (handlers_never_abort _ Hr) Hm).
Defined.

(** ** What is sent to the group *)

Lemma count_if_pos {A} (f : A -> bool) l x :
  In x l -> f x = true -> count_if f l <> 0.
Proof.
  induction l as [|y l IH]; simpl; [done|].
  intros [->|Hin] Hx; [rewrite Hx; lia|]. specialize (IH Hin Hx).
  destruct (f y); lia.
Qed.

(** X2.  What a contender asks the group to cancel.  While the process
    runs, [Group::cancel] is called at most once, however often
    [withdraw] is called; it is called only for the membership the join
    returned, and only after [withdraw] has been called.  [finalize],
    which runs when the process is terminated, calls it once more exactly
    when the candidacy is ready, whether or not [withdraw] has been
    called and whether or not the call has been made before.  So in the
    lifetime of a contender, its termination included, [Group::cancel] is
    called at most twice, and only for the membership the join
    returned. *)
Theorem cancel_sent_once_until_finalize w :
  reachable w ->
  cancels_sent w <= 1 /\
  (forall m, In (GCancel m) (calls w) ->
     candidacy w = Ready m /\ withdrawing w <> None) /\
  (exists w', finalize w = Some (tt, w') /\
     cancels_sent w' =
       cancels_sent w + (if isReady (candidacy w) then 1 else 0) /\
     cancels_sent w' <= 2 /\
     (forall m, In (GCancel m) (calls w') -> candidacy w = Ready m)).
Proof.
  intros Hr. pose proof (reachable_Inv2 w Hr) as HJ.
  pose proof (i2_cancel_once w HJ) as H1. split; [lia|]. split.
  - intros m Hin. split; [by apply (i2_cancel_sent w HJ)|].
    apply (i2_cancel_asked w HJ).
    pose proof (count_if_pos is_cancel _ _ Hin eq_refl) as Hpos.
    unfold cancels_sent. lia.
  - pose proof (i2_cancel_sent w HJ) as Hsent. revert H1 Hsent. clear.
    unfold cancels_sent, finalize.
    destruct w as [d c wa wd ca h cbs mb cl nw nc]; simpl. intros H1 Hsent.
    unfold_methods; unfold_setters; simpl.
    destruct ca as [|m| |]; simpl; eexists; (split; [reflexivity|]); simpl;
      rewrite ?count_if_app; simpl; (split; [lia|]); (split; [lia|]);
      try exact Hsent.
    intros m' [Hin|[[= <-]|[]]]%in_app_iff; [by apply Hsent|done].
Qed.

Lemma cancel_sent_once_until_finalize_witness :
  reachable (after (entered ++ [Withdraw; Withdraw])) /\
  cancels_sent (after (entered ++ [Withdraw; Withdraw])) <= 1 /\
  In (GCancel m7) (calls (after (entered ++ [Withdraw; Withdraw]))) /\
  candidacy (after (entered ++ [Withdraw; Withdraw])) = Ready m7 /\
  exists w',
    finalize (after (entered ++ [Withdraw; Withdraw])) = Some (tt, w') /\
    cancels_sent w' <= 2.
Proof.
  assert (Hr : reachable (after (entered ++ [Withdraw; Withdraw])))
    by (apply (after_reachable (entered ++ [Withdraw; Withdraw]));
        vm_compute; reflexivity).
  assert (Hin : In (GCancel m7) (calls (after (entered ++ [Withdraw; Withdraw]))))
    by (vm_compute; tauto).
  destruct (cancel_sent_once_until_finalize _ Hr)
    as (H1 & H2 & w' & H3 & _ & H4 & _).
  split; [exact Hr|]. split; [exact H1|]. split; [exact Hin|].
  split; [exact (proj1 (H2 m7 Hin))|].
  exists w'. split; [exact H3 | exact H4].
Defined.

(** X3.  A contender joins the group exactly once, with its own data, and
    this is the first thing it asks of the group: before [contend] nothing
    has been sent, and afterwards the requests start with the join and
    contain no other. *)
Theorem join_sent_exactly_once d es w :
  run es (init d) = Some w ->
  data w = d /\
  (contending w = None -> calls w = []) /\
  (contending w <> None ->
     exists rest, calls w = GJoin d :: rest /\ count_if is_join rest = 0).
Proof.
  intros Hrun. assert (Hr : reachable w) by (by exists d, es).
  pose proof (run_data _ _ _ Hrun) as Hd. simpl in Hd.
  split; [done|]. split.
  - intros Hc. by destruct (inv_fresh w (reachable_Inv w Hr) Hc) as (_ & _ & _ & ?).
  - intros Hc. rewrite <- Hd. by apply (i2_join w (reachable_Inv2 w Hr)).
Qed.

Lemma join_sent_exactly_once_witness :
  run (entered ++ [Withdraw; WatchDone (Ready [m8]); Deliver]) (init master)
  = Some (after (entered ++ [Withdraw; WatchDone (Ready [m8]); Deliver])) /\
  contending (after (entered ++ [Withdraw; WatchDone (Ready [m8]); Deliver]))
  <> None /\
  exists rest,
    calls (after (entered ++ [Withdraw; WatchDone (Ready [m8]); Deliver]))
    = GJoin master :: rest /\ count_if is_join rest = 0.
Proof.
  assert (Hrun :
    run (entered ++ [Withdraw; WatchDone (Ready [m8]); Deliver]) (init master)
    = Some (after (entered ++ [Withdraw; WatchDone (Ready [m8]); Deliver])))
    by (vm_compute; reflexivity).
  assert (Hc :
    contending (after (entered ++ [Withdraw; WatchDone (Ready [m8]); Deliver]))
    <> None) by (vm_compute; discriminate).
  split; [exact Hrun|]. split; [exact Hc|].
  exact (proj2 (proj2 (join_sent_exactly_once _ _ _ Hrun)) Hc).
Defined.

(** ** The outcome of the join *)

(** X4.  When [joined] runs on a failed join, the outer future fails with
    the message of the group, and so does the future of a withdrawal
    requested in the meantime; no inner future is created and nothing is
    sent to the group. *)
Theorem failed_join_fails_outer w msg rest :
  reachable w -> mailbox w = MJoined :: rest -> candidacy w = Failed msg ->
  exists c w',
    contending w = Some c /\ step Deliver w = Some w' /\
    heap w' !! c = Some (Failed msg) /\
    (forall q, withdrawing w = Some q -> heap w' !! q = Some (Failed msg)) /\
    watching w' = None /\ calls w' = calls w /\
    watches w' = 0 /\ cancels w' = cancels w /\ mailbox w' = rest.
Proof.
  intros Hr Hmb Hca.
  pose proof (reachable_Inv w Hr) as HI. pose proof (reachable_Inv2 w Hr) as HJ.
  destruct (i2_joins_state w HJ) as (Hwa & c & Hc & Hhc & Hq).
  { unfold joins_due. rewrite Hmb. simpl. lia. }
  pose proof (inv_contending_withdrawing w HI) as Hne.
  assert (Hnw : watches w = 0).
  { destruct (Nat.eq_dec (tokens w) 0) as [E|E]; [unfold tokens in E; lia|].
    destruct (inv_watch w HI E) as (? & ? & ? & ? & ? & ? & ? & ? & ?).
    congruence. }
  rewrite Hca in Hq. specialize (Hq eq_refl).
  exists c. revert Hmb Hca Hwa Hc Hhc Hq Hne Hnw. clear.
  destruct w as [d c' wa wd ca h cbs mb cl nw nc]; simpl.
  intros -> -> -> -> Hhc Hq Hne ->.
  unfold step; unfold_methods; unfold_setters; simpl.
  destruct wd as [wd|]; simpl; eexists; (split; [reflexivity|]);
    (split; [reflexivity|]); simpl.
  - specialize (Hq _ eq_refl). specialize (Hne _ _ eq_refl eq_refl).
    rewrite !promise_fail_lookup. repeat case_decide; try done.
    rewrite Hhc. split; [done|]. split; [|done].
    intros q [= <-]. rewrite !promise_fail_lookup.
    repeat case_decide; try done. by rewrite Hq.
  - rewrite promise_fail_lookup. case_decide; [|done]. by rewrite Hhc.
Qed.

Lemma failed_join_fails_outer_witness :
  reachable (after [Contend; Withdraw; JoinDone (Failed "session expired")]) /\
  exists c w',
    contending (after [Contend; Withdraw; JoinDone (Failed "session expired")])
    = Some c /\
    step Deliver (after [Contend; Withdraw; JoinDone (Failed "session expired")])
    = Some w' /\
    heap w' !! c = Some (Failed "session expired").
Proof.
  assert (Hr : reachable
    (after [Contend; Withdraw; JoinDone (Failed "session expired")]))
    by (apply (after_reachable
                 [Contend; Withdraw; JoinDone (Failed "session expired")]);
        vm_compute; reflexivity).
  split; [exact Hr|].
  destruct (failed_join_fails_outer _ "session expired" [MCancel] Hr)
    as (c & w' & H1 & H2 & H3 & _);
    [vm_compute; reflexivity | vm_compute; reflexivity |].
  exists c, w'. auto.
Defined.

(** X5.  When [joined] runs on a successful join and no withdrawal has
    been requested, the candidate enters: a new inner promise is created
    and is pending, the outer future becomes ready and holds it, and the
    first watch is registered, with the empty set as the expected
    memberships. *)
Theorem successful_join_enters w m rest :
  reachable w -> mailbox w = MJoined :: rest -> candidacy w = Ready m ->
  withdrawing w = None ->
  exists c w',
    contending w = Some c /\ heap w !! c = Some Pending /\
    step Deliver w = Some w' /\
    watching w' = Some (length (heap w)) /\
    heap w' !! length (heap w) = Some Pending /\
    heap w' !! c = Some (Ready (VFuture (length (heap w)))) /\
    calls w' = calls w ++ [GWatch []] /\
    watches w' = 1 /\ mailbox w' = rest /\ watched_in rest = 0.
Proof.
  intros Hr Hmb Hca Hwd.
  pose proof (reachable_Inv w Hr) as HI. pose proof (reachable_Inv2 w Hr) as HJ.
  destruct (i2_joins_state w HJ) as (Hwa & c & Hc & Hhc & _).
  { unfold joins_due. rewrite Hmb. simpl. lia. }
  assert (Ht : tokens w = 0).
  { destruct (Nat.eq_dec (tokens w) 0) as [E|E]; [done|].
    destruct (inv_watch w HI E) as (? & ? & ? & ? & ? & ? & ? & ? & ?).
    congruence. }
  pose proof (lookup_lt_Some _ _ _ Hhc) as Hlt.
  exists c. revert Hmb Hca Hwd Hwa Hc Hhc Ht Hlt. clear.
  destruct w as [d c' wa wd ca h cbs mb cl nw nc]; unfold tokens; simpl.
  intros -> -> -> -> -> Hhc Ht Hlt. simpl in Ht.
  assert (nw = 0) as -> by lia. assert (watched_in rest = 0) by lia.
  unfold step; unfold_methods; unfold_setters; simpl.
  unfold promise_set. rewrite lookup_snoc_old by done. rewrite Hhc. simpl.
  eexists. split; [reflexivity|]. split; [done|]. split; [reflexivity|]. simpl.
  split; [done|]. split.
  { rewrite list_lookup_insert_ne by lia. apply lookup_snoc_new. }
  split.
  { apply list_lookup_insert_eq. rewrite length_app. simpl. lia. }
  done.
Qed.

Lemma successful_join_enters_witness :
  reachable (after [Contend; JoinDone (Ready m7)]) /\
  exists c w',
    contending (after [Contend; JoinDone (Ready m7)]) = Some c /\
    step Deliver (after [Contend; JoinDone (Ready m7)]) = Some w' /\
    calls w' = calls (after [Contend; JoinDone (Ready m7)]) ++ [GWatch []].
Proof.
  assert (Hr : reachable (after [Contend; JoinDone (Ready m7)]))
    by (apply (after_reachable [Contend; JoinDone (Ready m7)]);
        vm_compute; reflexivity).
  split; [exact Hr|].
  destruct (successful_join_enters _ m7 [] Hr)
    as (c & w' & H1 & _ & H2 & _ & _ & _ & H3 & _);
    [vm_compute; reflexivity | vm_compute; reflexivity
    | vm_compute; reflexivity |].
  exists c, w'. auto.
Defined.

(** ** The outcome of a watch *)

(** X6.  When a watch fails and no withdrawal has been requested, the
    inner future fails with the message of the group, the outer future
    keeps the inner one, and the contender stops watching: nothing more is
    sent and no watch is in flight. *)
Theorem failed_watch_fails_inner w msg rest :
  reachable w -> mailbox w = MWatched (Failed msg) :: rest ->
  withdrawing w = None ->
  exists c p w',
    contending w = Some c /\ watching w = Some p /\
    step Deliver w = Some w' /\
    heap w' !! p = Some (Failed msg) /\
    heap w' !! c = Some (Ready (VFuture p)) /\
    calls w' = calls w /\ tokens w' = 0 /\ mailbox w' = rest.
Proof.
  intros Hr Hmb Hwd.
  pose proof (reachable_Inv w Hr) as HI. pose proof (reachable_Inv2 w Hr) as HJ.
  assert (Ht : tokens w <> 0) by (unfold tokens; rewrite Hmb; simpl; lia).
  destruct (inv_watch w HI Ht) as (c & v & p & m & Hc & Hhc & Hp & Hhp & Hca).
  destruct (i2_outer w HJ c v Hc Hhc) as (p' & -> & Hp').
  assert (p' = p) as -> by congruence. clear Hp'.
  pose proof (inv_tokens w HI) as Hle.
  pose proof (inv_contending_watching w HI c p Hc Hp) as Hne.
  exists c, p. revert Hmb Hwd Hc Hhc Hp Hhp Hle Hne. clear.
  destruct w as [d c' wa wd ca h cbs mb cl nw nc]; unfold tokens; simpl.
  intros -> -> -> Hhc -> Hhp Hle Hne. simpl in Hle.
  unfold step; unfold_methods; unfold_setters; simpl. rewrite Hhc. simpl.
  eexists. do 3 (split; [reflexivity|]). simpl.
  rewrite !promise_fail_lookup. repeat case_decide; try done.
  rewrite Hhp, Hhc. simpl. repeat split; try done. lia.
Qed.

Lemma failed_watch_fails_inner_witness :
  reachable (after (entered ++ [WatchDone (Failed "session expired")])) /\
  exists c p w',
    contending (after (entered ++ [WatchDone (Failed "session expired")]))
    = Some c /\
    watching (after (entered ++ [WatchDone (Failed "session expired")]))
    = Some p /\
    step Deliver (after (entered ++ [WatchDone (Failed "session expired")]))
    = Some w' /\
    heap w' !! p = Some (Failed "session expired") /\
    heap w' !! c = Some (Ready (VFuture p)).
Proof.
  assert (Hr : reachable
    (after (entered ++ [WatchDone (Failed "session expired")])))
    by (apply (after_reachable
                 (entered ++ [WatchDone (Failed "session expired")]));
        vm_compute; reflexivity).
  split; [exact Hr|].
  destruct (failed_watch_fails_inner _ "session expired" [] Hr)
    as (c & p & w' & H1 & H2 & H3 & H4 & H5 & _);
    [vm_compute; reflexivity | vm_compute; reflexivity |].
  exists c, p, w'. auto.
Defined.

Lemma handle_watching_cell m w w' p v :
  Inv w -> watching w = Some p -> heap w !! p = Some Pending ->
  handle m w = Some (tt, w') -> heap w' !! p = Some (Ready v) ->
  v = VNothing /\ withdrawing w = None /\
  exists ms c, m = MWatched (Ready ms) /\ candidacy w = Ready c /\
               count ms c = 0.
Proof.
  inv_pre w; intros [= ->] Hp; destruct m as [| |r|r];
    unfold_methods; unfold_setters; simpl.
  all: try (destruct ca as [|c0|msg|]; simpl; try discriminate).
  all: try (destruct (h !! c) as [[]|] eqn:Hc; simpl; try discriminate).
  all: try (destruct r as [|ms|msg'|]; simpl; try discriminate).
  all: try (destruct (count ms c0 =? 0) eqn:Hcount; simpl).
  all: try (unfold promise_set; rewrite ?Hp; simpl).
  all: intros [= <-]; simpl; intros Hv.
  all: try congruence.
  all: try (rewrite promise_associate_other in Hv by done; congruence).
  all: try (rewrite list_lookup_insert_eq in Hv by done; simplify_eq;
            (split; [done|]); (split; [done|]); eexists _, _;
            (split; [reflexivity|]); (split; [reflexivity|]);
            by apply Nat.eqb_eq).
  all: repeat (apply promise_fail_ready in Hv); congruence.
Qed.

(** X7.  The loss of the candidacy is never signalled without cause: in
    any run, the one step that sets the inner future is the delivery of
    a watch result, obtained with no withdrawal requested, whose set of
    memberships does not contain the candidacy. *)
Theorem loss_only_on_absent_snapshot w e w' p v :
  reachable w -> watching w = Some p -> heap w !! p = Some Pending ->
  step e w = Some w' -> heap w' !! p = Some (Ready v) ->
  v = VNothing /\ e = Deliver /\ withdrawing w = None /\
  exists ms rest m,
    mailbox w = MWatched (Ready ms) :: rest /\ candidacy w = Ready m /\
    count ms m = 0.
Proof.
  intros Hr Hwa Hp Hstep Hv. pose proof (reachable_Inv w Hr) as HI.
  pose proof (lookup_lt_Some _ _ _ Hp) as Hlt.
  revert Hstep. unfold step.
  destruct (exec e w) as [[[] w1]|] eqn:He; [|done].
  simpl; intros [= <-]. revert He. destruct e; simpl.
  - destruct w as [d c wa wd ca h cbs mb cl nw nc]; simpl in *.
    unfold_methods; unfold_setters; simpl.
    destruct c; simpl; [done|]. intros [= <-]. simpl in Hv.
    rewrite lookup_snoc_old in Hv by done. congruence.
  - destruct w as [d c wa wd ca h cbs mb cl nw nc]; simpl in *.
    unfold_methods; unfold_setters; simpl.
    destruct c; simpl; [|done].
    destruct wd; simpl; [intros [= <-]|destruct ca; simpl; intros [= <-]];
      simpl in Hv; rewrite ?lookup_snoc_old in Hv
        by (rewrite ?length_app; simpl; lia); congruence.
  - destruct w as [d c wa wd ca h cbs mb cl nw nc]; simpl in *.
    unfold_methods; unfold_setters; simpl.
    match goal with |- context [if ?b then _ else _] => destruct b end;
      simpl; [|done]. intros [= <-]. simpl in Hv. congruence.
  - destruct w as [d c wa wd ca h cbs mb cl nw nc]; simpl in *.
    unfold_methods; unfold_setters; simpl.
    destruct nw; simpl; [done|].
    destruct r; simpl; try done; intros [= <-]; simpl in Hv; congruence.
  - destruct w as [d c wa wd ca h cbs mb cl nw nc]; simpl in *.
    unfold_methods; unfold_setters; simpl.
    destruct nc; simpl; [done|].
    destruct r; simpl; try done; intros [= <-]; simpl in Hv; congruence.
  - unfold bind at 1, get.
    destruct (mailbox w) as [|m rest] eqn:Hmb; [done|].
    unfold bind at 1, modify. intros He.
    pose proof (pop_Inv w m rest HI Hmb) as HI'.
    assert (H1 : watching (with_mailbox rest w) = Some p) by (by destruct w).
    assert (H2 : heap (with_mailbox rest w) !! p = Some Pending)
      by (by destruct w).
    destruct (handle_watching_cell m _ w1 p v HI' H1 H2 He Hv)
      as (-> & Hwd & ms & c & -> & Hca & Hcount).
    split; [done|]. split; [done|]. split; [by destruct w|].
    exists ms, rest, c. split; [done|]. split; [by destruct w | done].
Qed.

Lemma loss_only_on_absent_snapshot_witness :
  reachable (after (entered ++ [WatchDone (Ready [m8])])) /\
  watching (after (entered ++ [WatchDone (Ready [m8])])) = Some 1 /\
  heap (after (entered ++ [WatchDone (Ready [m8])])) !! 1 = Some Pending /\
  step Deliver (after (entered ++ [WatchDone (Ready [m8])]))
  = Some (after (entered ++ [WatchDone (Ready [m8]); Deliver])) /\
  heap (after (entered ++ [WatchDone (Ready [m8]); Deliver])) !! 1
  = Some (Ready VNothing) /\
  withdrawing (after (entered ++ [WatchDone (Ready [m8])])) = None.
Proof.
  assert (Hr : reachable (after (entered ++ [WatchDone (Ready [m8])])))
    by (apply (after_reachable (entered ++ [WatchDone (Ready [m8])]));
        vm_compute; reflexivity).
  assert (H1 : watching (after (entered ++ [WatchDone (Ready [m8])])) = Some 1)
    by (vm_compute; reflexivity).
  assert (H2 : heap (after (entered ++ [WatchDone (Ready [m8])])) !! 1
               = Some Pending) by (vm_compute; reflexivity).
  assert (H3 : step Deliver (after (entered ++ [WatchDone (Ready [m8])]))
               = Some (after (entered ++ [WatchDone (Ready [m8]); Deliver])))
    by (vm_compute; reflexivity).
  assert (H4 : heap (after (entered ++ [WatchDone (Ready [m8]); Deliver])) !! 1
               = Some (Ready VNothing)) by (vm_compute; reflexivity).
  do 5 (split; [assumption|]).
  exact (proj1 (proj2 (proj2
    (loss_only_on_absent_snapshot _ _ _ _ _ Hr H1 H2 H3 H4)))).
Defined.

(** X8.  Whenever the outer future of [contend] is ready, the join has
    succeeded and the value of the future is the inner future, the one
    held by the watching slot. *)
Theorem outer_future_holds_inner w c v :
  reachable w -> contending w = Some c -> heap w !! c = Some (Ready v) ->
  exists p m, v = VFuture p /\ watching w = Some p /\ candidacy w = Ready m.
Proof.
  intros Hr Hc Hv. pose proof (reachable_Inv2 w Hr) as HJ.
  destruct (i2_outer w HJ c v Hc Hv) as (p & -> & Hp).
  pose proof (i2_watching w HJ) as Hw. rewrite Hp in Hw.
  specialize (Hw ltac:(done)).
  destruct (candidacy w) as [|m| |]; try done. by exists p, m.
Qed.

Lemma outer_future_holds_inner_witness :
  reachable (after entered) /\
  contending (after entered) = Some 0 /\
  heap (after entered) !! 0 = Some (Ready (VFuture 1)) /\
  exists p m, VFuture 1 = VFuture p /\ watching (after entered) = Some p /\
              candidacy (after entered) = Ready m.
Proof.
  assert (Hr : reachable (after entered))
    by (apply (after_reachable entered); vm_compute; reflexivity).
  assert (H1 : contending (after entered) = Some 0) by (vm_compute; reflexivity).
  assert (H2 : heap (after entered) !! 0 = Some (Ready (VFuture 1)))
    by (vm_compute; reflexivity).
  do 3 (split; [assumption|]).
  exact (outer_future_holds_inner _ _ _ Hr H1 H2).
Defined.

(** ** The outcome of a withdrawal *)

Lemma withdrawal_answer_step w r rest :
  reachable w -> mailbox w = MCancelled r :: rest ->
  exists q,
    withdrawing w = Some q /\ heap w !! q = Some Pending /\
    step Deliver w =
      Some (with_heap (<[q := fstate_map VBool r]> (heap w))
              (with_mailbox rest w)).
Proof.
  intros Hr Hmb. pose proof (reachable_Inv2 w Hr) as HJ.
  destruct (i2_answers_state w HJ) as (Hready & q & Hq & Hhq).
  { unfold answers_due. rewrite Hmb. simpl. lia. }
  exists q. do 2 (split; [done|]).
  revert Hmb Hq Hhq Hready. clear.
  destruct w as [d c wa wd ca h cbs mb cl nw nc]; simpl.
  intros -> -> Hhq Hready. destruct ca; try done.
  unfold step; unfold_methods; unfold_setters; simpl.
  unfold promise_associate. by rewrite Hhq.
Qed.

(** X9.  When the answer of the group to the cancel arrives, a withdrawal
    is in progress on a membership that was obtained, its promise is
    still open, and the promise takes the answer as it is: the value,
    or the failure.  Nothing else changes. *)
Theorem cancel_answer_completes_withdrawal w r rest :
  reachable w -> mailbox w = MCancelled r :: rest ->
  exists q m,
    withdrawing w = Some q /\ candidacy w = Ready m /\
    heap w !! q = Some Pending /\
    step Deliver w =
      Some (with_heap (<[q := fstate_map VBool r]> (heap w))
              (with_mailbox rest w)).
Proof.
  intros Hr Hmb. pose proof (reachable_Inv2 w Hr) as HJ.
  destruct (i2_answers_state w HJ) as (Hready & q & Hq & Hhq).
  { unfold answers_due. rewrite Hmb. simpl. lia. }
  destruct (candidacy w) as [|m| |] eqn:Hca; try done.
  exists q, m. do 3 (split; [done|]).
  revert Hmb Hq Hhq Hca. clear.
  destruct w as [d c wa wd ca h cbs mb cl nw nc]; simpl.
  intros -> -> Hhq ->.
  unfold step; unfold_methods; unfold_setters; simpl.
  unfold promise_associate. by rewrite Hhq.
Qed.

Lemma cancel_answer_completes_withdrawal_witness :
  reachable (after (entered ++ [Withdraw; CancelDone (Ready true)])) /\
  mailbox (after (entered ++ [Withdraw; CancelDone (Ready true)]))
  = [MCancelled (Ready true)] /\
  exists q m,
    withdrawing (after (entered ++ [Withdraw; CancelDone (Ready true)]))
    = Some q /\
    candidacy (after (entered ++ [Withdraw; CancelDone (Ready true)]))
    = Ready m /\
    heap (after (entered ++ [Withdraw; CancelDone (Ready true)])) !! q
    = Some Pending.
Proof.
  assert (Hr : reachable
    (after (entered ++ [Withdraw; CancelDone (Ready true)])))
    by (apply (after_reachable (entered ++ [Withdraw; CancelDone (Ready true)]));
        vm_compute; reflexivity).
  assert (Hm : mailbox (after (entered ++ [Withdraw; CancelDone (Ready true)]))
               = [MCancelled (Ready true)]) by (vm_compute; reflexivity).
  split; [exact Hr|]. split; [exact Hm|].
  destruct (cancel_answer_completes_withdrawal _ _ _ Hr Hm)
    as (q & m & H1 & H2 & H3 & _).
  exists q, m. auto.
Defined.

Lemma run_app es1 : forall es2 w,
  run (es1 ++ es2) w =
  match run es1 w with Some w' => run es2 w' | None => None end.
Proof.
  induction es1 as [|e es1 IH]; simpl; intros es2 w; [done|].
  destruct (step e w); [apply IH | done].
Qed.

Lemma reachable_run w es w' : reachable w -> run es w = Some w' -> reachable w'.
Proof.
  intros (d & es0 & H0) H. exists d, (es0 ++ es). by rewrite run_app, H0.
Qed.

Lemma reachable_withdraw w f w' :
  reachable w -> withdraw w = Some (f, w') -> reachable w'.
Proof.
  intros Hr Hw. apply (reachable_run w [Withdraw] w' Hr).
  simpl. unfold step. simpl. unfold bind at 1. by rewrite Hw.
Qed.

(** X10.  The future that the first [withdraw] returns, when the join has
    not failed, is the one that receives the answer of the group to the
    cancel: however the run goes on, when that answer is delivered this
    future takes it. *)
Theorem first_withdraw_future_gets_answer w f w1 es w2 r rest :
  reachable w -> withdrawing w = None -> isFailed (candidacy w) = false ->
  withdraw w = Some (f, w1) -> run es w1 = Some w2 ->
  mailbox w2 = MCancelled r :: rest ->
  heap w1 !! f = Some Pending /\
  exists w3, step Deliver w2 = Some w3 /\
             heap w3 !! f = Some (fstate_map VBool r).
Proof.
  intros Hr Hwd Hnf Hw Hrun Hmb.
  assert (Hslot : withdrawing w1 = Some f /\ heap w1 !! f = Some Pending).
  { revert Hwd Hnf Hw. clear.
    destruct w as [d c wa wd ca h cbs mb cl nw nc]; simpl. intros ->.
    unfold_methods; unfold_setters; simpl. destruct c; simpl; [|done].
    destruct ca; simpl; try done; intros _ [= <- <-]; simpl;
      (split; [done|]); apply lookup_snoc_new. }
  destruct Hslot as (Hf & Hpend). split; [done|].
  pose proof (reachable_run _ _ _ (reachable_withdraw _ _ _ Hr Hw) Hrun) as Hr2.
  destruct (run_slots_kept _ _ _ Hrun) as (_ & _ & Hk).
  destruct (withdrawal_answer_step w2 r rest Hr2 Hmb)
    as (q & Hq & Hhq & Hstep).
  rewrite (Hk _ Hf) in Hq. injection Hq as <-.
  eexists. split; [exact Hstep|].
  destruct w2; simpl in *. apply list_lookup_insert_eq.
  by eapply lookup_lt_Some.
Qed.

Lemma first_withdraw_future_gets_answer_witness :
  reachable (after [Contend]) /\
  withdrawing (after [Contend]) = None /\
  isFailed (candidacy (after [Contend])) = false /\
  withdraw (after [Contend]) = Some (1, after [Contend; Withdraw]) /\
  run [JoinDone (Ready m7); Deliver; Deliver; CancelDone (Failed "no node")]
      (after [Contend; Withdraw])
  = Some (after [Contend; Withdraw; JoinDone (Ready m7); Deliver; Deliver;
                 CancelDone (Failed "no node")]) /\
  mailbox (after [Contend; Withdraw; JoinDone (Ready m7); Deliver; Deliver;
                  CancelDone (Failed "no node")])
  = [MCancelled (Failed "no node")] /\
  exists w3,
    step Deliver (after [Contend; Withdraw; JoinDone (Ready m7); Deliver;
                         Deliver; CancelDone (Failed "no node")]) = Some w3 /\
    heap w3 !! 1 = Some (Failed "no node").
Proof.
  assert (Hr : reachable (after [Contend]))
    by (apply (after_reachable [Contend]); vm_compute; reflexivity).
  assert (H1 : withdrawing (after [Contend]) = None) by (vm_compute; reflexivity).
  assert (H2 : isFailed (candidacy (after [Contend])) = false)
    by (vm_compute; reflexivity).
  assert (H3 : withdraw (after [Contend]) = Some (1, after [Contend; Withdraw]))
    by (vm_compute; reflexivity).
  assert (H4 :
    run [JoinDone (Ready m7); Deliver; Deliver; CancelDone (Failed "no node")]
        (after [Contend; Withdraw])
    = Some (after [Contend; Withdraw; JoinDone (Ready m7); Deliver; Deliver;
                   CancelDone (Failed "no node")])) by (vm_compute; reflexivity).
  assert (H5 :
    mailbox (after [Contend; Withdraw; JoinDone (Ready m7); Deliver; Deliver;
                    CancelDone (Failed "no node")])
    = [MCancelled (Failed "no node")]) by (vm_compute; reflexivity).
  do 6 (split; [assumption|]).
  exact (proj2 (first_withdraw_future_gets_answer _ _ _ _ _ _ _
                  Hr H1 H2 H3 H4 H5)).
Defined.

Lemma step_watching_cell e w w' p :
  Inv w -> Inv2 w -> watching w = Some p -> withdrawing w <> None ->
  step e w = Some w' -> heap w' !! p = heap w !! p.
Proof.
  intros HI HJ Hwa Hwd.
  pose proof (i2_watching w HJ) as Hready. rewrite Hwa in Hready.
  specialize (Hready ltac:(done)).
  revert HI Hwa Hwd Hready. clear HJ. unfold step.
  inv_pre w; intros [= ->] Hwd' Hready; try done.
  destruct ca as [|m| |]; try done. clear Hready Hwd'.
  destruct e as [| |r|r|r|]; unfold_methods; unfold_setters; simpl;
    try discriminate.
  - intros [= <-]; simpl. by apply lookup_snoc_old.
  - destruct nw; simpl; [discriminate|].
    destruct r; simpl; try discriminate; by intros [= <-].
  - destruct nc; simpl; [discriminate|].
    destruct r; simpl; try discriminate; by intros [= <-].
  - destruct mb as [|msg rest]; simpl; [discriminate|].
    destruct msg as [| |r|r]; simpl.
    + by intros [= <-].
    + by intros [= <-].
    + destruct (h !! c) as [[]|]; simpl; try discriminate. by intros [= <-].
    + intros [= <-]; simpl. by apply promise_associate_other.
Qed.

(** X11.  Once a candidate that has entered asks to withdraw, the
    contender never touches the inner future again: it stays as it was
    (pending, if it was pending) in every continuation of the run, also
    after the membership has been cancelled. *)
Theorem inner_future_frozen_after_withdraw w p es w' :
  reachable w -> watching w = Some p -> withdrawing w <> None ->
  run es w = Some w' ->
  watching w' = Some p /\ heap w' !! p = heap w !! p.
Proof.
  intros Hr. pose proof (reachable_Inv w Hr) as HI.
  pose proof (reachable_Inv2 w Hr) as HJ. clear Hr.
  revert w HI HJ. induction es as [|e es IH]; simpl; intros w HI HJ Hwa Hwd.
  - by intros [= <-].
  - destruct (step e w) as [w1|] eqn:E; [|done]. intros Hrun.
    destruct (step_slots_kept _ _ _ E) as (_ & Hkw & Hkd).
    rewrite <- (step_watching_cell _ _ _ _ HI HJ Hwa Hwd E).
    apply IH; eauto using step_Inv, step_Inv2.
    destruct (withdrawing w) as [q|]; [|done]. by rewrite (Hkd q).
Qed.

Lemma inner_future_frozen_after_withdraw_witness :
  reachable (after (entered ++ [Withdraw])) /\
  watching (after (entered ++ [Withdraw])) = Some 1 /\
  withdrawing (after (entered ++ [Withdraw])) <> None /\
  run [CancelDone (Ready true); Deliver; WatchDone (Ready []); Deliver]
      (after (entered ++ [Withdraw]))
  = Some (after (entered ++ [Withdraw; CancelDone (Ready true); Deliver;
                             WatchDone (Ready []); Deliver])) /\
  heap (after (entered ++ [Withdraw; CancelDone (Ready true); Deliver;
                           WatchDone (Ready []); Deliver])) !! 1
  = heap (after (entered ++ [Withdraw])) !! 1 /\
  heap (after (entered ++ [Withdraw])) !! 1 = Some Pending.
Proof.
  assert (Hr : reachable (after (entered ++ [Withdraw])))
    by (apply (after_reachable (entered ++ [Withdraw])); vm_compute; reflexivity).
  assert (H1 : watching (after (entered ++ [Withdraw])) = Some 1)
    by (vm_compute; reflexivity).
  assert (H2 : withdrawing (after (entered ++ [Withdraw])) <> None)
    by (vm_compute; discriminate).
  assert (H3 :
    run [CancelDone (Ready true); Deliver; WatchDone (Ready []); Deliver]
        (after (entered ++ [Withdraw]))
    = Some (after (entered ++ [Withdraw; CancelDone (Ready true); Deliver;
                               WatchDone (Ready []); Deliver])))
    by (vm_compute; reflexivity).
  do 4 (split; [assumption|]).
  split; [|vm_compute; reflexivity].
  exact (proj2 (inner_future_frozen_after_withdraw _ _ _ _ Hr H1 H2 H3)).
Defined.

(** ** Termination of the process *)

(** X12.  [finalize] looks at the candidacy only, not at the withdrawing
    slot.  So terminating a contender that has already sent its cancel
    sends a second cancel for the same membership, and terminating one
    whose join has not succeeded sends nothing; in either case no promise
    and no slot is touched. *)
Theorem finalize_cancels_again w :
  reachable w ->
  (forall m, In (GCancel m) (calls w) ->
     exists w', finalize w = Some (tt, w') /\
                calls w' = calls w ++ [GCancel m] /\
                cancels_sent w' = 2 /\
                heap w' = heap w /\ slots_kept w w') /\
  (isReady (candidacy w) = false -> finalize w = Some (tt, w)).
Proof.
  intros Hr. pose proof (reachable_Inv2 w Hr) as HJ. split.
  - intros m Hin. pose proof (i2_cancel_sent w HJ m Hin) as Hca.
    pose proof (i2_cancel_once w HJ) as Hle.
    pose proof (count_if_pos is_cancel _ _ Hin eq_refl) as Hpos.
    revert Hca Hle Hpos. clear.
    destruct w as [d c wa wd ca h cbs mb cl nw nc].
    unfold cancels_due, cancels_sent, finalize; simpl. intros -> Hle Hpos.
    unfold_methods; unfold_setters; simpl. eexists. split; [reflexivity|].
    simpl. split; [done|]. split; [|by repeat split].
    rewrite count_if_app. simpl. lia.
  - destruct w as [d c wa wd ca h cbs mb cl nw nc]; simpl.
    unfold finalize. by destruct ca.
Qed.

Lemma finalize_cancels_again_witness :
  reachable (after (entered ++ [Withdraw])) /\
  In (GCancel m7) (calls (after (entered ++ [Withdraw]))) /\
  exists w', finalize (after (entered ++ [Withdraw])) = Some (tt, w') /\
             calls w' = calls (after (entered ++ [Withdraw])) ++ [GCancel m7].
Proof.
  assert (Hr : reachable (after (entered ++ [Withdraw])))
    by (apply (after_reachable (entered ++ [Withdraw])); vm_compute; reflexivity).
  assert (Hin : In (GCancel m7) (calls (after (entered ++ [Withdraw]))))
    by (vm_compute; tauto).
  split; [exact Hr|]. split; [exact Hin|].
  destruct (proj1 (finalize_cancels_again _ Hr) m7 Hin) as (w' & H1 & H2 & _).
  exists w'. auto.
Defined.

(** ** More on memberships *)

(** X13.  [operator<] on memberships is a strict weak ordering, as
    [std::set<Membership>] requires: it is irreflexive, asymmetric and
    transitive, and two memberships are the same key of a set (neither is
    less than the other) exactly when their sequence numbers agree, which
    is an equivalence. *)
Theorem Membership_lt_strict_weak_order :
  (forall a, op_lt a a = false) /\
  (forall a b, op_lt a b = true -> op_lt b a = false) /\
  (forall a b c, op_lt a b = true -> op_lt b c = true -> op_lt a c = true) /\
  (forall a b, equiv_key a b = true <-> sequence a = sequence b) /\
  (forall a b c,
     equiv_key a b = true -> equiv_key b c = true -> equiv_key a c = true).
Proof.
  assert (Heq : forall a b, equiv_key a b = true <-> sequence a = sequence b).
  { intros [s1 c1] [s2 c2]. unfold equiv_key, op_lt; simpl.
    rewrite andb_true_iff, !negb_true_iff, !N.ltb_ge. lia. }
  split; [|split; [|split; [|split]]].
  - intros a. apply N.ltb_irrefl.
  - intros a b. unfold op_lt. rewrite N.ltb_lt, N.ltb_ge. lia.
  - intros a b c. unfold op_lt. rewrite !N.ltb_lt. lia.
  - exact Heq.
  - intros a b c. rewrite !Heq. congruence.
Qed.

Lemma Membership_lt_strict_weak_order_witness :
  op_lt m7 m8 = true /\ op_lt m8 (mkMembership 9 0) = true /\
  op_lt m7 (mkMembership 9 0) = true /\ op_lt m8 m7 = false.
Proof.
  destruct Membership_lt_strict_weak_order as (_ & Hasym & Htrans & _).
  assert (H1 : op_lt m7 m8 = true) by reflexivity.
  assert (H2 : op_lt m8 (mkMembership 9 0) = true) by reflexivity.
  split; [exact H1|]. split; [exact H2|].
  split; [exact (Htrans _ _ _ H1 H2) | exact (Hasym _ _ H1)].
Defined.

Lemma count_cons x ms m :
  count (x :: ms) m = (if equiv_key x m then 1 else 0) + count ms m.
Proof.
  unfold count. rewrite filter_cons.
  destruct (equiv_key x m) eqn:E; case_decide; simpl; congruence.
Qed.

(** X14.  Whether a membership is counted in a set depends on sequence
    numbers only: [count] is the number of elements with the sequence of
    the membership looked for, so it is zero exactly when no element has
    that sequence, and the [cancelled] future of the membership looked
    for (for instance one issued by another group) makes no
    difference. *)
Theorem count_by_sequence ms m :
  count ms m = count_if (fun x => (sequence x =? sequence m)%N) ms /\
  (count ms m = 0 <-> forall x, In x ms -> sequence x <> sequence m) /\
  (forall c, count ms (mkMembership (sequence m) c) = count ms m).
Proof.
  assert (Hk : forall x y, equiv_key x y = (sequence x =? sequence y)%N).
  { intros x y. unfold equiv_key, op_lt.
    destruct (N.eqb_spec (sequence x) (sequence y)) as [->|Hne].
    - by rewrite N.ltb_irrefl.
    - destruct (N.ltb_spec (sequence x) (sequence y)),
               (N.ltb_spec (sequence y) (sequence x)); simpl; try done; lia. }
  assert (H1 : forall m0,
            count ms m0 = count_if (fun x => (sequence x =? sequence m0)%N) ms).
  { intros m0. induction ms as [|x ms IH]; [done|].
    rewrite count_cons, IH, Hk. done. }
  split; [apply H1|]. split.
  - rewrite H1. clear H1. induction ms as [|x ms IH]; simpl; [done|].
    destruct (N.eqb_spec (sequence x) (sequence m)) as [E|E].
    + split; [lia|]. intros H. by destruct (H x (or_introl eq_refl)).
    + simpl. rewrite IH. split.
      * intros H y [<-|Hy]; auto.
      * intros H y Hy. apply H. by right.
  - intros c. by rewrite !H1.
Qed.

(** X15.  The six comparison operators agree with one another: [!=] is
    the negation of [==], [>] is [<] with the arguments exchanged, [<=]
    is the negation of [>] and [>=] that of [<], [<=] is [<] or [==],
    and [==] is [<=] and [>=]. *)
Theorem Membership_operators_agree a b :
  op_ne a b = negb (op_eq a b) /\
  op_gt a b = op_lt b a /\
  op_le a b = negb (op_gt a b) /\
  op_ge a b = negb (op_lt a b) /\
  op_le a b = op_lt a b || op_eq a b /\
  op_eq a b = op_le a b && op_ge a b.
Proof.
  destruct a as [s1 c1], b as [s2 c2].
  unfold op_eq, op_ne, op_lt, op_le, op_gt, op_ge; simpl.
  destruct (N.eqb_spec s1 s2), (N.ltb_spec s1 s2), (N.ltb_spec s2 s1),
    (N.leb_spec s1 s2), (N.leb_spec s2 s1); simpl; repeat split;
    try reflexivity; lia.
Qed.

(** ** More on the factory *)

Lemma ltrim_blank l : forallb is_whitespace l = true -> ltrim l = [].
Proof.
  induction l as [|c l IH]; simpl; [done|].
  intros H. apply andb_true_iff in H as [Hc Hl]. rewrite Hc. auto.
Qed.

Lemma trim_blank s :
  forallb is_whitespace (String.list_ascii_of_string s) = true -> trim s = "".
Proof. intros H. unfold trim. by rewrite (ltrim_blank _ H). Qed.

Lemma file_spec p :
  String.eqb (String.append "file://" p) "" = false /\
  startsWith (String.append "file://" p) "zk://" = false /\
  startsWith (String.append "file://" p) "file://" = true /\
  substr (String.append "file://" p) 7 = p.
Proof. repeat split; try reflexivity; cbn; by destruct p. Qed.

Lemma create_unfold URL path URL_parse os_read fuel zk :
  create URL path URL_parse os_read (S fuel) zk =
  if String.eqb zk ""
  then Some (TryOk StandaloneMasterContender)
  else if startsWith zk "zk://"
  then
    match URL_parse zk with
    | TryError e => Some (TryError e)
    | TryOk url =>
        if String.eqb (path url) "/"
        then Some (TryError
          "Expecting a (chroot) path for ZooKeeper ('/' is not supported)")
        else Some (TryOk (ZooKeeperMasterContender url))
    end
  else if startsWith zk "file://"
  then
    match os_read (substr zk 7) with
    | TryError _ =>
        Some (TryError
          (String.append "Failed to read from file at '"
             (String.append (substr zk 7) "'")))
    | TryOk contents => create URL path URL_parse os_read fuel (trim contents)
    end
  else
    Some (TryError
      (String.append "Failed to parse '" (String.append zk "'"))).
Proof. reflexivity. Qed.

Section CreateMore.

Variable URL : Type.
Variable path : URL -> string.
Variable URL_parse : string -> Try URL.
Variable os_read : string -> Try string.

Local Abbreviation create := (create URL path URL_parse os_read).

Lemma create_file fuel p :
  create (S fuel) (String.append "file://" p) =
  match os_read p with
  | TryError _ =>
      Some (TryError (String.append "Failed to read from file at '"
                        (String.append p "'")))
  | TryOk contents => create fuel (trim contents)
  end.
Proof.
  destruct (file_spec p) as (H1 & H2 & H3 & H4).
  rewrite create_unfold, H1, H2, H3, H4. done.
Qed.

(** X16.  Whatever the chain of files, [create] never builds a ZooKeeper
    contender for the path [/]: the URL of the contender it returns is
    the result of parsing a string that starts with [zk://], and its path
    is not [/]. *)
Theorem create_never_root_path fuel : forall zk url,
  create fuel zk = Some (TryOk (ZooKeeperMasterContender url)) ->
  path url <> "/" /\
  exists zk', startsWith zk' "zk://" = true /\ URL_parse zk' = TryOk url.
Proof.
  induction fuel as [|fuel IH]; simpl; intros zk url; [done|].
  destruct (String.eqb zk ""); [done|].
  destruct (startsWith zk "zk://") eqn:Hzk.
  - destruct (URL_parse zk) as [u|e] eqn:Hp; [|done].
    destruct (String.eqb_spec (path u) "/") as [|Hne]; [done|].
    intros [= <-]. split; [done|]. by exists zk.
  - destruct (startsWith zk "file://"); [|done].
    destruct (os_read (substr zk 7)); [|done]. apply IH.
Qed.

(** X17.  A file that is empty or holds only white space selects the
    standalone contender. *)
Theorem create_blank_file_standalone fuel p contents :
  os_read p = TryOk contents ->
  forallb is_whitespace (String.list_ascii_of_string contents) = true ->
  create (S (S fuel)) (String.append "file://" p)
  = Some (TryOk StandaloneMasterContender).
Proof.
  intros Hread Hblank. rewrite create_file, Hread, (trim_blank _ Hblank). done.
Qed.

(** X18.  A file whose contents, once trimmed, name the file itself makes
    [create] call itself for ever: no amount of fuel gives a result. *)
Theorem create_self_reference_diverges p contents :
  os_read p = TryOk contents ->
  trim contents = String.append "file://" p ->
  forall fuel, create fuel (String.append "file://" p) = None.
Proof.
  intros Hread Htrim fuel. induction fuel as [|fuel IH]; [done|].
  by rewrite create_file, Hread, Htrim.
Qed.

End CreateMore.

Lemma create_never_root_path_witness :
  create string (fun u => u) demo_parse demo_read 2 "file:///etc/mesos/zk"
  = Some (TryOk (ZooKeeperMasterContender "/mesos")) /\
  "/mesos" <> "/".
Proof.
  assert (H : create string (fun u => u) demo_parse demo_read 2
                "file:///etc/mesos/zk"
              = Some (TryOk (ZooKeeperMasterContender "/mesos")))
    by reflexivity.
  split; [exact H|].
  exact (proj1 (create_never_root_path string (fun u => u) demo_parse demo_read
                  2 _ _ H)).
Defined.

Lemma create_blank_file_standalone_witness :
  blank_read "/etc/mesos/zk"
  = TryOk (String " " (String (ascii_of_nat 10) EmptyString)) /\
  create string (fun u => u) demo_parse blank_read 2 "file:///etc/mesos/zk"
  = Some (TryOk StandaloneMasterContender).
Proof.
  split; [reflexivity|].
  apply (create_blank_file_standalone string (fun u => u) demo_parse blank_read
           0 "/etc/mesos/zk" (String " " (String (ascii_of_nat 10) EmptyString)));
    reflexivity.
Defined.

Lemma create_self_reference_diverges_witness :
  loop_read "/etc/mesos/zk"
  = TryOk (String.append "file:///etc/mesos/zk"
             (String (ascii_of_nat 10) EmptyString)) /\
  create string (fun u => u) demo_parse loop_read 100 "file:///etc/mesos/zk"
  = None.
Proof.
  split; [reflexivity|].
  apply (create_self_reference_diverges string (fun u => u) demo_parse loop_read
           "/etc/mesos/zk"
           (String.append "file:///etc/mesos/zk"
              (String (ascii_of_nat 10) EmptyString)));
    reflexivity.
Defined.

(** ** The standalone contender *)

Lemma release_length s : length (Standalone.release s) = length (Standalone.cells s).
Proof.
  unfold Standalone.release, promise_set. destruct (Standalone.promise s); [|done].
  destruct (Standalone.cells s !! n) as [[]|]; simpl; auto. apply length_insert.
Qed.

Lemma release_lookup s q :
  (forall p, Standalone.promise s = Some p ->
             Standalone.cells s !! p = Some Pending) ->
  Standalone.release s !! q =
  if decide (Standalone.promise s = Some q) then Some (Ready VNothing)
  else Standalone.cells s !! q.
Proof.
  intros Hp. unfold Standalone.release, promise_set.
  destruct (Standalone.promise s) as [p|]; [|by case_decide].
  rewrite (Hp p eq_refl). simpl. case_decide as E.
  - injection E as ->. apply list_lookup_insert_eq.
    eapply lookup_lt_Some, Hp. done.
  - apply list_lookup_insert_ne. congruence.
Qed.

Lemma standalone_contend_Inv s outs o s' :
  Standalone.Inv s outs -> Standalone.contend s = Some (o, s') ->
  Standalone.Inv s' (o :: outs).
Proof.
  intros [Hp Hl]. unfold Standalone.contend.
  destruct (Standalone.initialized s); [|done]. intros [= <- <-].
  assert (Hold : forall q x, Standalone.cells s !! q = Some x ->
    ((Standalone.release s ++ [Pending])
       ++ [Ready (VFuture (length (Standalone.release s)))]) !! q
    = Standalone.release s !! q).
  { intros q x Hq. pose proof (lookup_lt_Some _ _ _ Hq).
    rewrite <- release_length in *.
    rewrite !lookup_app_l; rewrite ?length_app; simpl; try lia. done. }
  assert (Hnewp :
    ((Standalone.release s ++ [Pending])
       ++ [Ready (VFuture (length (Standalone.release s)))])
      !! length (Standalone.release s) = Some Pending).
  { rewrite lookup_app_l by (rewrite length_app; simpl; lia).
    apply lookup_snoc_new. }
  assert (Hnewo :
    ((Standalone.release s ++ [Pending])
       ++ [Ready (VFuture (length (Standalone.release s)))])
      !! length (Standalone.release s ++ [Pending])
    = Some (Ready (VFuture (length (Standalone.release s))))).
  { apply lookup_snoc_new. }
  assert (Hkeep : forall o' p',
    Standalone.inner (Standalone.cells s) o' = Some p' ->
    Standalone.inner
      ((Standalone.release s ++ [Pending])
         ++ [Ready (VFuture (length (Standalone.release s)))]) o' = Some p').
  { intros o' p' Hi. unfold Standalone.inner in *.
    destruct (Standalone.cells s !! o') as [x|] eqn:Eo; [|done].
    rewrite (Hold _ _ Eo), (release_lookup _ _ Hp).
    case_decide as E1; [rewrite (Hp _ E1) in Eo; by injection Eo as <-|].
    by rewrite Eo. }
  constructor; simpl.
  - by intros p [= <-].
  - intros o rest [= <- <-]. split.
    + exists (length (Standalone.release s)).
      unfold Standalone.inner. by rewrite Hnewo.
    + intros o' Hin. destruct outs as [|o1 rest1]; [done|].
      destruct (Hl o1 rest1 eq_refl) as ((p1 & Hi1 & Hcur) & Hrest).
      destruct Hin as [<-|Hin].
      * exists p1. split; [by apply Hkeep|].
        rewrite (Hold _ _ (Hp _ Hcur)), (release_lookup _ _ Hp).
        by case_decide.
      * destruct (Hrest o' Hin) as (p' & Hi' & Hset). exists p'.
        split; [by apply Hkeep|].
        rewrite (Hold _ _ Hset), (release_lookup _ _ Hp). by case_decide.
Qed.

Lemma standalone_run_Inv cs : forall s outs s' outs',
  Standalone.Inv s outs ->
  Standalone.calls_run cs s outs = Some (s', outs') ->
  Standalone.Inv s' outs'.
Proof.
  induction cs as [|[] cs IH]; simpl; intros s outs s' outs' HI.
  - by intros [= <- <-].
  - apply IH. destruct HI. by constructor.
  - destruct (Standalone.contend s) as [[o s1]|] eqn:E; [|done].
    apply IH. eauto using standalone_contend_Inv.
Qed.

Lemma standalone_fresh_Inv : Standalone.Inv Standalone.fresh [].
Proof. by constructor. Qed.

(** X19.  A standalone contender holds one candidacy at a time.  After any
    sequence of calls, every outer future that [contend] has returned is
    ready and holds an inner future; the inner future of the latest
    [contend] is pending, those of all earlier ones have been set; and
    destroying the contender sets the latest too, so that afterwards all
    of them are set. *)
Theorem standalone_one_open_candidacy cs s o rest :
  Standalone.calls_run cs Standalone.fresh [] = Some (s, o :: rest) ->
  (exists p, Standalone.inner (Standalone.cells s) o = Some p /\
             Standalone.promise s = Some p /\
             Standalone.cells s !! p = Some Pending) /\
  (forall o', In o' rest ->
     exists p', Standalone.inner (Standalone.cells s) o' = Some p' /\
                Standalone.cells s !! p' = Some (Ready VNothing)) /\
  (forall o', In o' (o :: rest) ->
     exists p', Standalone.inner (Standalone.destroy s) o' = Some p' /\
                Standalone.destroy s !! p' = Some (Ready VNothing)).
Proof.
  intros Hrun.
  pose proof (standalone_run_Inv _ _ _ _ _ standalone_fresh_Inv Hrun)
    as [Hp Hl].
  destruct (Hl o rest eq_refl) as ((p & Hi & Hcur) & Hrest).
  split; [exists p; auto|]. split; [exact Hrest|].
  assert (Hkeep : forall o' p',
    Standalone.inner (Standalone.cells s) o' = Some p' ->
    Standalone.inner (Standalone.destroy s) o' = Some p').
  { intros o' p' Hi'. unfold Standalone.destroy, Standalone.inner in *.
    destruct (Standalone.cells s !! o') as [x|] eqn:Eo; [|done].
    rewrite (release_lookup _ _ Hp).
    case_decide as E1; [rewrite (Hp _ E1) in Eo; by injection Eo as <-|].
    by rewrite Eo. }
  intros o' [<-|Hin].
  - exists p. split; [by apply Hkeep|].
    unfold Standalone.destroy. rewrite (release_lookup _ _ Hp). by case_decide.
  - destruct (Hrest o' Hin) as (p' & Hi' & Hset). exists p'.
    split; [by apply Hkeep|].
    unfold Standalone.destroy. rewrite (release_lookup _ _ Hp). by case_decide.
Qed.

Lemma standalone_one_open_candidacy_witness :
  Standalone.calls_run
    [Standalone.Initialize; Standalone.Contend; Standalone.Contend]
    Standalone.fresh []
  = Some (Standalone.mkState true (Some 2)
            [Ready VNothing; Ready (VFuture 0); Pending; Ready (VFuture 2)],
          [3; 1]) /\
  exists p, Standalone.inner
              [Ready VNothing; Ready (VFuture 0); Pending; Ready (VFuture 2)] 3
            = Some p /\
            [Ready VNothing; Ready (VFuture 0); Pending; Ready (VFuture 2)] !! p
            = Some (@Pending value).
Proof.
  assert (H : Standalone.calls_run
    [Standalone.Initialize; Standalone.Contend; Standalone.Contend]
    Standalone.fresh []
  = Some (Standalone.mkState true (Some 2)
            [Ready VNothing; Ready (VFuture 0); Pending; Ready (VFuture 2)],
          [3; 1])) by reflexivity.
  split; [exact H|].
  destruct (proj1 (standalone_one_open_candidacy _ _ _ _ H)) as (p & H1 & _ & H2).
  exists p. auto.
Defined.

(** X20.  [contend] on a standalone contender is refused exactly as long
    as [initialize] has not been called: a sequence of calls on a new
    contender goes through unless it starts with [contend]. *)
Theorem standalone_contend_needs_initialize cs :
  Standalone.calls_run cs Standalone.fresh [] = None <->
  exists cs', cs = Standalone.Contend :: cs'.
Proof.
  assert (Hok : forall cs s outs,
            Standalone.initialized s = true ->
            Standalone.calls_run cs s outs <> None).
  { clear. induction cs as [|[] cs IH]; simpl; intros s outs Hs; [done| |].
    - by apply IH.
    - unfold Standalone.contend. rewrite Hs. by apply IH. }
  destruct cs as [|[] cs]; simpl.
  - split; [done|]. by intros (? & ?).
  - split; [|by intros (? & ?)]. intros H. by apply Hok in H.
  - split; [by exists cs | done].
Qed.

(** ** One watch at a time *)

(** X21.  The contender never has more than one watch outstanding,
    counting the watch futures the group has not completed and the
    results not yet delivered; and while one is outstanding the candidate
    has entered and its inner future is still pending. *)
Theorem at_most_one_watch_in_flight w :
  reachable w ->
  watches w + watched_in (mailbox w) <= 1 /\
  (watches w + watched_in (mailbox w) = 1 ->
   exists c p m,
     contending w = Some c /\ heap w !! c = Some (Ready (VFuture p)) /\
     watching w = Some p /\ heap w !! p = Some Pending /\
     candidacy w = Ready m).
Proof.
  intros Hr. pose proof (reachable_Inv w Hr) as HI.
  pose proof (reachable_Inv2 w Hr) as HJ.
  split; [exact (inv_tokens w HI)|]. intros H1.
  destruct (inv_watch w HI) as (c & v & p & m & Hc & Hhc & Hp & Hhp & Hca).
  { unfold tokens. lia. }
  destruct (i2_outer w HJ c v Hc Hhc) as (p' & -> & Hp').
  assert (p' = p) as -> by congruence.
  by exists c, p, m.
Qed.

Lemma at_most_one_watch_in_flight_witness :
  reachable (after (entered ++ [WatchDone (Ready [m7; m8]); Deliver])) /\
  watches (after (entered ++ [WatchDone (Ready [m7; m8]); Deliver]))
  + watched_in (mailbox (after (entered ++ [WatchDone (Ready [m7; m8]);
                                            Deliver]))) = 1 /\
  exists c p m,
    contending (after (entered ++ [WatchDone (Ready [m7; m8]); Deliver]))
    = Some c /\
    heap (after (entered ++ [WatchDone (Ready [m7; m8]); Deliver])) !! c
    = Some (Ready (VFuture p)) /\
    watching (after (entered ++ [WatchDone (Ready [m7; m8]); Deliver]))
    = Some p /\
    heap (after (entered ++ [WatchDone (Ready [m7; m8]); Deliver])) !! p
    = Some Pending /\
    candidacy (after (entered ++ [WatchDone (Ready [m7; m8]); Deliver]))
    = Ready m.
Proof.
  assert (Hr : reachable
    (after (entered ++ [WatchDone (Ready [m7; m8]); Deliver])))
    by (apply (after_reachable
                 (entered ++ [WatchDone (Ready [m7; m8]); Deliver]));
        vm_compute; reflexivity).
  assert (H1 :
    watches (after (entered ++ [WatchDone (Ready [m7; m8]); Deliver]))
    + watched_in (mailbox (after (entered ++ [WatchDone (Ready [m7; m8]);
                                              Deliver]))) = 1)
    by (vm_compute; reflexivity).
  split; [exact Hr|]. split; [exact H1|].
  exact (proj2 (at_most_one_watch_in_flight _ Hr) H1).
Defined.
